(** * Categorical DQN agent: distribution projection and Bellman target

    A shallow embedding of
    [tf_agents/agents/categorical_dqn/categorical_dqn_agent.py]:
    [project_distribution], [CategoricalDqnAgent._next_q_distribution] and
    the target-support construction of [CategoricalDqnAgent._loss].

    Numbers.  Tensor entries are floating-point numbers in the program; here
    they are rationals ([Q]) with exact arithmetic, compared with [==].
    Rounding and overflow are outside the model: statements that the
    program meets "within floating-point tolerance" are stated exactly.
    The one operation whose result the rationals would misstate, the
    division by a [delta_z] that is zero, is modelled a second time over
    [float], which keeps infinities and NaN apart from the numbers.

    Tensors.  A tensor of rank [r] is an [r]-fold nested list, row major.
    Every tensor has a fully defined static shape, as in eager execution, so
    the static shape assertions of the program see the actual shape. *)

From Stdlib Require Import List Bool Arith ZArith QArith Qabs Qminmax Lia Lqa.

Import ListNotations.

Open Scope Q_scope.

(** ** Errors raised by the program *)

Inductive error : Type :=
| ValueError            (* static shape assertions, bad indexing *)
| InvalidArgumentError. (* a failed [tf.Assert] *)

Inductive result (A : Type) : Type :=
| Ok (a : A)
| Raise (e : error).

Arguments Ok {A} a.

Arguments Raise {A} e.

Definition bind {A B} (m : result A) (k : A -> result B) : result B :=
  match m with
  | Ok a => k a
  | Raise e => Raise e
  end.

Notation "x <- m ;; k" := (bind m (fun x => k))
  (at level 61, m at next level, right associativity).

Notation "m ;;; k" := (bind m (fun _ => k))
  (at level 61, right associativity).

(** ** Tensors and the TensorFlow operations the program calls *)

Module tf.

Fixpoint ndarray (r : nat) : Type :=
  match r with
  | O => Q
  | S r' => list (ndarray r')
  end.

Record Tensor : Type := mkTensor { ndims : nat; numpy : ndarray ndims }.

Definition scalar (x : Q) : Tensor := mkTensor 0 x.
Definition vector (v : list Q) : Tensor := mkTensor 1 v.
Definition matrix (m : list (list Q)) : Tensor := mkTensor 2 m.

(** The dimensions of a nested list: the length at each level, read along
    the first element.  (An empty level has no inner dimensions left to
    read; they are reported as 0.) *)
Definition empty (r : nat) : ndarray r :=
  match r with
  | O => 0
  | S r' => []
  end.

Fixpoint dims (r : nat) : ndarray r -> list nat :=
  match r with
  | O => fun _ => []
  | S r' => fun l => length l :: dims r' (hd (empty r') l)
  end.

(** [TensorShape]: [None] is an unknown rank, a [None] dimension an unknown
    size.  The shapes of this development are always fully defined. *)
Definition Dimension : Type := option nat.
Definition TensorShape : Type := option (list Dimension).

Definition shape (t : Tensor) : TensorShape :=
  Some (map Some (dims (ndims t) (numpy t))).

(** The dynamic shape, [tf.shape(t)]. *)
Definition dynamic_shape (t : Tensor) : list nat := dims (ndims t) (numpy t).

Definition dimension_is_compatible_with (a b : Dimension) : bool :=
  match a, b with
  | Some x, Some y => Nat.eqb x y
  | _, _ => true
  end.

Fixpoint dims_compatible (ds es : list Dimension) : bool :=
  match ds, es with
  | [], [] => true
  | d :: ds', e :: es' => dimension_is_compatible_with d e && dims_compatible ds' es'
  | _, _ => false
  end.

Definition is_compatible_with (s o : TensorShape) : bool :=
  match s, o with
  | Some ds, Some es => dims_compatible ds es
  | _, _ => true
  end.

Definition assert_is_compatible_with (s o : TensorShape) : result unit :=
  if is_compatible_with s o then Ok tt else Raise ValueError.

Definition assert_has_rank (s : TensorShape) (rank : nat) : result unit :=
  match s with
  | Some ds => if Nat.eqb (length ds) rank then Ok tt else Raise ValueError
  | None => Ok tt
  end.

(** [tf.Assert(condition, data)]. *)
Definition Assert (condition : bool) : result unit :=
  if condition then Ok tt else Raise InvalidArgumentError.

(** Elementwise binary operations broadcast along each axis: an axis of
    size 1 is stretched to the size of the other operand's axis. *)
Fixpoint zip_with {A B C} (f : A -> B -> C) (xs : list A) (ys : list B) : list C :=
  match xs, ys with
  | x :: xs', y :: ys' => f x y :: zip_with f xs' ys'
  | _, _ => []
  end.

Definition broadcast {A B C} (f : A -> B -> C) (xs : list A) (ys : list B) : list C :=
  match xs, ys with
  | [x], _ => map (f x) ys
  | _, [y] => map (fun x => f x y) xs
  | _, _ => zip_with f xs ys
  end.

Fixpoint binary_op (f : Q -> Q -> Q) (r : nat) : ndarray r -> ndarray r -> ndarray r :=
  match r with
  | O => f
  | S r' => broadcast (binary_op f r')
  end.

Fixpoint unary_op (f : Q -> Q) (r : nat) : ndarray r -> ndarray r :=
  match r with
  | O => f
  | S r' => map (unary_op f r')
  end.

(** [t[0]]: the first slice along axis 0. *)
Definition getitem0 (t : Tensor) : result Tensor :=
  match t with
  | mkTensor O _ => Raise ValueError
  | mkTensor (S r) l =>
      match l with
      | [] => Raise ValueError
      | x :: _ => Ok (mkTensor r x)
      end
  end.

(** [t[1:] - t[:-1]]. *)
Definition adjacent_differences (t : Tensor) : result Tensor :=
  match t with
  | mkTensor O _ => Raise ValueError
  | mkTensor (S r) l =>
      Ok (mkTensor (S r) (binary_op Qminus (S r) (tl l) (removelast l)))
  end.

(** [tf.clip_by_value(t, clip_value_min, clip_value_max)] on one entry:
    [maximum(minimum(t, clip_value_max), clip_value_min)]. *)
Definition clip_by_value (t clip_value_min clip_value_max : Q) : Q :=
  Qmax (Qmin t clip_value_max) clip_value_min.

(** [tf.tile(input, multiples)]. *)
Definition tile_axis {A} (n : nat) (l : list A) : list A := concat (repeat l n).

Fixpoint tile (r : nat) (multiples : list nat) : ndarray r -> ndarray r :=
  match r with
  | O => fun x => x
  | S r' => fun l =>
      match multiples with
      | [] => l
      | m :: ms => tile_axis m (map (tile r' ms) l)
      end
  end.

(** [tf.reshape(t, shape)]: the entries in row-major order, regrouped. *)
Fixpoint flatten (r : nat) : ndarray r -> list Q :=
  match r with
  | O => fun x => [x]
  | S r' => fun l => concat (map (flatten r') l)
  end.

Fixpoint size_of (shape : list nat) : nat :=
  match shape with
  | [] => 1
  | d :: ds => d * size_of ds
  end.

Fixpoint unflatten (shape : list nat) : list Q -> ndarray (length shape) :=
  match shape return list Q -> ndarray (length shape) with
  | [] => fun flat => hd 0 flat
  | d :: ds => fun flat =>
      map (fun k => unflatten ds (firstn (size_of ds) (skipn (k * size_of ds) flat)))
          (seq 0 d)
  end.

Definition reshape (r : nat) (t : ndarray r) (shape : list nat) : ndarray (length shape) :=
  unflatten shape (flatten r t).

(** [tf.reduce_sum] along the last axis of a list of numbers. *)
Definition reduce_sum (l : list Q) : Q := fold_right Qplus 0 l.

(** [tf.reduce_all] of a list of booleans. *)
Definition reduce_all (l : list bool) : bool := forallb (fun b => b) l.

Definition greater (a b : Q) : bool := negb (Qle_bool a b).
Definition equal (a b : Q) : bool := Qeq_bool a b.

(** Reading a tensor at a known rank. *)
Definition as_scalar (t : Tensor) : result Q :=
  match t with
  | mkTensor 0 x => Ok x
  | _ => Raise ValueError
  end.

Definition as_vector (t : Tensor) : result (list Q) :=
  match t with
  | mkTensor 1 v => Ok v
  | _ => Raise ValueError
  end.

Definition as_matrix (t : Tensor) : result (list (list Q)) :=
  match t with
  | mkTensor 2 m => Ok m
  | _ => Raise ValueError
  end.

End tf.

Import tf.

(** ** [project_distribution]

    The body under [tf.control_dependencies(validate_deps)], one definition
    per assignment of the source.  It runs after the shape assertions, on a
    rank-2 [supports] and [weights] and a rank-1 [target_support]. *)

Section ProjectionBody.

Variables supports weights : list (list Q).
Variable target_support : list Q.
Variable delta_z : Q.

Definition v_min : Q := nth 0 target_support 0.
Definition v_max : Q := last target_support 0.
Definition batch_size : nat := length supports.
Definition num_dims : nat := length target_support.

(* tf.clip_by_value(supports, v_min, v_max)[:, None, :] *)
Definition clipped_support : ndarray 3 :=
  map (fun row => [row])
      (unary_op (fun x => clip_by_value x v_min v_max) 2 supports).

(* tf.tile([clipped_support], [1, 1, num_dims, 1]) *)
Definition tiled_support : ndarray 4 :=
  tile 4 [1; 1; num_dims; 1]%nat [clipped_support].

(* tf.reshape(tf.tile(target_support[:, None], [batch_size, 1]),
              [batch_size, num_dims, 1]) *)
Definition reshaped_target_support : ndarray 3 :=
  reshape 2
    (tile 2 [batch_size; 1]%nat (map (fun z => [z]) target_support))
    [batch_size; num_dims; 1]%nat.

(* tf.abs(tiled_support - reshaped_target_support) *)
Definition numerator : ndarray 4 :=
  unary_op Qabs 4 (binary_op Qminus 4 tiled_support [reshaped_target_support]).

(* 1 - (numerator / delta_z) *)
Definition quotient : ndarray 4 :=
  unary_op (fun n => 1 - n / delta_z) 4 numerator.

(* tf.clip_by_value(quotient, 0, 1) *)
Definition clipped_quotient : ndarray 4 :=
  unary_op (fun q => clip_by_value q 0 1) 4 quotient.

(* weights[:, None, :] *)
Definition weights_3d : ndarray 3 := map (fun row => [row]) weights.

(* clipped_quotient * weights *)
Definition inner_prod : ndarray 4 :=
  binary_op Qmult 4 clipped_quotient [weights_3d].

(* tf.reshape(tf.reduce_sum(inner_prod, 3), [batch_size, num_dims]) *)
Definition projection : ndarray 2 :=
  reshape 3 (map (map (map reduce_sum)) inner_prod) [batch_size; num_dims]%nat.

End ProjectionBody.

(** The assertions appended to [validate_deps] when [validate_args] holds. *)
Definition validate_deps (supports weights target_support : Tensor)
    (target_support_deltas : list Q) (delta_z : Q) : result unit :=
  (* supports and weights have the same shapes *)
  Assert (reduce_all (zip_with Nat.eqb (dynamic_shape supports)
                                       (dynamic_shape weights))) ;;;
  (* elements of supports and target_support have the same shape *)
  Assert (reduce_all (map (Nat.eqb (nth 1 (dynamic_shape supports) O))
                          (dynamic_shape target_support))) ;;;
  (* target_support has a single dimension *)
  Assert (Nat.eqb (length (dynamic_shape target_support)) 1) ;;;
  (* target_support is monotonically increasing *)
  Assert (reduce_all (map (fun d => greater d 0) target_support_deltas)) ;;;
  (* the values in target_support are equally spaced *)
  Assert (reduce_all (map (fun d => equal d delta_z) target_support_deltas)).

Definition project_distribution (supports weights target_support : Tensor)
    (validate_args : bool) : result (list (list Q)) :=
  target_support_deltas <- adjacent_differences target_support ;;
  delta_z <- getitem0 target_support_deltas ;;
  assert_is_compatible_with (shape supports) (shape weights) ;;;
  supports_0 <- getitem0 supports ;;
  assert_is_compatible_with (shape supports_0) (shape target_support) ;;;
  assert_has_rank (shape target_support) 1 ;;;
  supports_m <- as_matrix supports ;;
  weights_m <- as_matrix weights ;;
  target_support_v <- as_vector target_support ;;
  deltas_v <- as_vector target_support_deltas ;;
  delta_z_s <- as_scalar delta_z ;;
  (if validate_args
   then validate_deps supports weights target_support deltas_v delta_z_s
   else Ok tt) ;;;
  Ok (projection supports_m weights_m target_support_v delta_z_s).

Definition ex_supports : list (list Q) := [[0; 2; 4; 6; 8]; [1; 3; 4; 5; 6]].

Definition ex_weights : list (list Q) :=
  [[1#10; 6#10; 1#10; 1#10; 1#10]; [1#10; 2#10; 5#10; 1#10; 1#10]].

Definition ex_target_support : list Q := [4; 5; 6; 7; 8].

(** ** The projection body in closed form

    [overlap] is one entry of [clipped_quotient]: the share of the source
    point [x] that lands on target atom [z]. *)

Definition overlap (target_support : list Q) (delta_z z x : Q) : Q :=
  clip_by_value
    (1 - Qabs (clip_by_value x (v_min target_support) (v_max target_support) - z)
         / delta_z)
    0 1.

(** ** Well-formed inputs of [project_distribution] *)

(** [target_support[1:] - target_support[:-1]] and its first entry, for a
    rank-1 [target_support]. *)
Definition deltas_of (target_support : list Q) : list Q :=
  broadcast Qminus (tl target_support) (removelast target_support).

Definition delta_z_of (target_support : list Q) : Q :=
  hd 0 (deltas_of target_support).

(** Shapes [(batch_size, num_dims)], [(batch_size, num_dims)] and
    [(num_dims)], with at least one row and at least two atoms. *)
Definition shapes_agree (supports weights : list (list Q))
    (target_support : list Q) : Prop :=
  (1 <= length supports)%nat /\
  length weights = length supports /\
  Forall (fun row => length row = length target_support) supports /\
  Forall (fun row => length row = length target_support) weights /\
  (2 <= length target_support)%nat.

(** The docstring's requirement on the contents of [target_support]:
    monotonically increasing and equally spaced. *)
Definition monotonically_increasing (target_support : list Q) : Prop :=
  Forall (fun d => 0 < d) (deltas_of target_support).

Definition equally_spaced (target_support : list Q) : Prop :=
  Forall (fun d => d == delta_z_of target_support) (deltas_of target_support).

Definition valid_target_support (target_support : list Q) : Prop :=
  monotonically_increasing target_support /\ equally_spaced target_support.

(** The tent of width [d] centred at 0, evaluated at [y]. *)
Definition tent (d y : Q) : Q := clip_by_value (1 - Qabs y / d) 0 1.

(** ** Uniformly spaced supports *)

(** [l] is [a; a + d; a + 2 d; ...]. *)
Fixpoint arith_from (a d : Q) (l : list Q) : Prop :=
  match l with
  | [] => True
  | z :: l' => z == a /\ arith_from (a + d) d l'
  end.

(** ** The projection as the specification words it

    [clamp x lo hi] limits [x] to the interval [[lo, hi]]; should the bounds
    cross, the lower one wins, as for [tf.clip_by_value]. *)

Definition clamp (x lo hi : Q) : Q := Qmax lo (Qmin x hi).

Definition sum_over (n : nat) (f : nat -> Q) : Q :=
  reduce_sum (map f (seq 0 n)).

(** [projected[row, j] = sum_i clamp(1 - |clip(supports[row, i], v_min, v_max)
    - target_support[j]| / delta_z, 0, 1) * weights[row, i]], with [v_min]
    and [v_max] the first and last elements of [target_support] and
    [delta_z = target_support[1] - target_support[0]]. *)
Definition projected_entry (supports weights : list (list Q))
    (target_support : list Q) (row j : nat) : Q :=
  let v_min := nth 0 target_support 0 in
  let v_max := nth (length target_support - 1) target_support 0 in
  let delta_z := nth 1 target_support 0 - nth 0 target_support 0 in
  let source := nth row supports [] in
  sum_over (length source) (fun i =>
    clamp (1 - Qabs (clamp (nth i source 0) v_min v_max - nth j target_support 0)
               / delta_z) 0 1
    * nth i (nth row weights []) 0).

(** The projection the docstring gives for the running example. *)
Definition ex_projection : list (list Q) :=
  [[8#10; 0; 1#10; 0; 1#10]; [8#10; 1#10; 1#10; 0; 0]].

(** [contribution row j i] is the entry [inner_prod[0, row, j, i]]: what
    source point [i] of the row adds to target atom [j]. *)
Definition contribution (supports weights : list (list Q))
    (target_support : list Q) (row j i : nat) : Q :=
  nth i (nth j (nth row
    (hd [] (inner_prod supports weights target_support (delta_z_of target_support)))
    []) []) 0.

Definition ex_malformed_target_support : list Q := [4; 5; 6; 7; 9].

(** ** The agent *)

(** [tf.linspace(start, stop, num)]. *)
Definition linspace (start stop : Q) (num : nat) : list Q :=
  match num with
  | 1%nat => [start]
  | _ => map (fun i => start + inject_Z (Z.of_nat i)
                               * ((stop - start) / inject_Z (Z.of_nat (num - 1))))
             (seq 0 num)
  end.

(** The hyperparameters [CategoricalDqnAgent.__init__] stores. *)
Record CategoricalDqnAgent : Type := {
  _num_atoms : nat;
  _min_q_value : Q;
  _max_q_value : Q;
  _n_step_update : nat;
  _gamma : Q;
  _reward_scale_factor : Q
}.

Definition _support (self : CategoricalDqnAgent) : list Q :=
  linspace (_min_q_value self) (_max_q_value self) (_num_atoms self).

Fixpoint traverse {A B} (f : A -> result B) (l : list A) : result (list B) :=
  match l with
  | [] => Ok []
  | x :: l' => y <- f x ;; ys <- traverse f l' ;; Ok (y :: ys)
  end.

(** [tf.argmax] along a non-empty axis: an index of the largest entry.
    TensorFlow leaves open which one it returns on ties; here it is the
    first. *)
Fixpoint argmax_from (best_index : nat) (best : Q) (i : nat) (l : list Q) : nat :=
  match l with
  | [] => best_index
  | x :: l' =>
      if Qlt_le_dec best x
      then argmax_from i x (S i) l'
      else argmax_from best_index best (S i) l'
  end.

Definition argmax (l : list Q) : result nat :=
  match l with
  | [] => Raise InvalidArgumentError
  | x :: l' => Ok (argmax_from 0 x 1 l')
  end.

(** [tf.gather_nd(params, indices)] for a rank-3 [params] and index pairs. *)
Definition gather_nd (params : ndarray 3) (indices : list (list nat))
    : result (list (list Q)) :=
  traverse
    (fun index =>
       match index with
       | [b; a] =>
           match nth_error params b with
           | Some actions =>
               match nth_error actions a with
               | Some row => Ok row
               | None => Raise InvalidArgumentError
               end
           | None => Raise InvalidArgumentError
           end
       | _ => Raise ValueError
       end)
    indices.

(** [tf.concat([a, b], axis=-1)] of two index columns. *)
Definition concat_last (a b : list (list nat)) : list (list nat) :=
  zip_with (@app nat) a b.

Section NextQDistribution.

(** The target network, [tf.nn.softmax] and [BatchSquash] are collaborators
    of the agent, taken as parameters: the network maps an observation and a
    step type to logits of shape (batch, num_actions, num_atoms), with one
    more leading dimension when the inputs carry a time dimension, which
    [BatchSquash.flatten] folds into the batch; [softmax] acts on the last
    axis. *)
Variables Observation StepType NetworkState BatchSquash : Type.
Variable _target_q_network : Observation -> StepType -> Tensor * NetworkState.
Variable softmax : list Q -> list Q.
Variable flatten : BatchSquash -> Tensor -> Tensor.

Record TimeStep : Type := {
  step_type : StepType;
  reward : list Q;
  discount : list Q;
  observation : Observation
}.

Definition as_rank3 (t : Tensor) : result (ndarray 3) :=
  match t with
  | mkTensor 3 l => Ok l
  | _ => Raise ValueError
  end.

Definition _next_q_distribution (self : CategoricalDqnAgent)
    (next_time_steps : TimeStep) (batch_squash : option BatchSquash)
    : result (list (list Q)) :=
  let (next_target_logits, _) :=
    _target_q_network (observation next_time_steps) (step_type next_time_steps) in
  let next_target_logits :=
    match batch_squash with
    | Some squash => flatten squash next_target_logits
    | None => next_target_logits
    end in
  next_target_logits <- as_rank3 next_target_logits ;;
  let next_target_probabilities : ndarray 3 :=
    map (map softmax) next_target_logits in
  let next_target_q_values : list (list Q) :=
    map (map reduce_sum)
        (binary_op Qmult 3 [[_support self]] next_target_probabilities) in
  next_qt_argmax <- traverse argmax next_target_q_values ;;
  let next_qt_argmax := map (fun a => [a]) next_qt_argmax in
  let batch_indices :=
    map (fun b => [b]) (seq 0 (length next_target_q_values)) in
  let next_qt_argmax := concat_last batch_indices next_qt_argmax in
  gather_nd next_target_probabilities next_qt_argmax.

(** The expected value of an action under the target network:
    [sum_k support[k] * prob[action, k]]. *)
Definition expected_value (support probabilities : list Q) : Q :=
  sum_over (length support)
           (fun k => nth k support 0 * nth k probabilities 0).

End NextQDistribution.

(** ** Next-state greedy selection *)

(** [a] is a greedy action for the rows [probabilities] of one batch
    element: no action has a larger expected value. *)
Definition greedy_action (support : list Q) (probabilities : list (list Q))
    (a : nat) : Prop :=
  (a < length probabilities)%nat /\
  forall a', (a' < length probabilities)%nat ->
    expected_value support (nth a' probabilities [])
    <= expected_value support (nth a probabilities []).

Definition argmax_total (l : list Q) : nat :=
  match l with
  | [] => 0%nat
  | x :: l' => argmax_from 0 x 1 l'
  end.

(** ** The target support of [_loss] *)

Module trajectory.

(** The fields of a [Trajectory] batch that enter the target support,
    each of shape (batch, time). *)
Record Trajectory : Type := {
  reward : list (list Q);
  discount : list (list Q)
}.

End trajectory.

Module value_ops.

(** Modelled from the spec: [value_ops.discounted_return], whose module is
    not among the sources.  The specification gives it as the n-step
    return accumulator [discounted_return(rewards[batch, T],
    discounts[batch, T], final_value[batch]) -> return[batch]], "the
    accumulated discounted reward over the n-step window", batch-major and
    returning the final value only: per batch element, the rewards are
    accumulated backwards from [final_value], each step discounting what
    follows it. *)
Definition discounted_return_row (rewards discounts : list Q) (final_value : Q) : Q :=
  fold_right (fun step acc => fst step + snd step * acc) final_value
             (combine rewards discounts).

Definition discounted_return (rewards discounts : list (list Q))
    (final_value : list Q) : list Q :=
  zip_with (fun steps value =>
              discounted_return_row (fst steps) (snd steps) value)
           (combine rewards discounts) final_value.

End value_ops.

(** [tf.reduce_prod] along the last axis. *)
Definition reduce_prod (l : list Q) : Q := fold_right Qmult 1 l.

(** [tf.squeeze(t, [1])] of a (batch, 1) tensor. *)
Definition squeeze (t : list (list Q)) : result (list Q) :=
  traverse (fun row => match row with
                       | [x] => Ok x
                       | _ => Raise InvalidArgumentError
                       end) t.

(** Modelled from the spec: [_experience_to_transitions], inherited from
    [DqnAgent], which is not among the sources.  Of the transition the
    specification describes ("next time-step observation/step-type/reward/
    discount", over a window of 2 steps for the 1-step update, the reward
    and discount of the final step being dummies) only what the target
    support reads is modelled: the reward and the discount of
    [next_time_steps], the window without its final step, time dimension
    removed. *)
Definition _experience_to_transitions (experience : trajectory.Trajectory)
    : result (list Q * list Q) :=
  reward <- squeeze (map (@removelast Q) (trajectory.reward experience)) ;;
  discount <- squeeze (map (@removelast Q) (trajectory.discount experience)) ;;
  Ok (reward, discount).

Section TargetSupport.

Variable self : CategoricalDqnAgent.
(* tf.shape(q_logits)[0] *)
Variable batch_size : nat.
Variables gamma reward_scale_factor : Q.

Definition loss_tiled_support : list (list Q) :=
  reshape 1 (tile 1 [batch_size] (_support self))
          [batch_size; _num_atoms self].

(** The branch [self._n_step_update == 1]. *)
Definition one_step_target_support (next_time_steps : list Q * list Q)
    : list (list Q) :=
  let tiled_support := loss_tiled_support in
  let discount := map (fun d => [d]) (snd next_time_steps) in
  let next_value_term := binary_op Qmult 2 discount tiled_support in
  let reward := map (fun r => [r]) (fst next_time_steps) in
  let reward_term := unary_op (Qmult reward_scale_factor) 2 reward in
  binary_op Qplus 2 reward_term (unary_op (Qmult gamma) 2 next_value_term).

(** The other branch: the n-step machinery. *)
Definition n_step_target_support (experience : trajectory.Trajectory)
    : list (list Q) :=
  let tiled_support := loss_tiled_support in
  let rewards :=
    unary_op (Qmult reward_scale_factor) 2
             (map (@removelast Q) (trajectory.reward experience)) in
  let discounts :=
    unary_op (Qmult gamma) 2
             (map (@removelast Q) (trajectory.discount experience)) in
  let discounted_returns :=
    value_ops.discounted_return rewards discounts (repeat 0 batch_size) in
  let discounted_returns := map (fun r => [r]) discounted_returns in
  let final_value_discount := map reduce_prod discounts in
  let final_value_discount := map (fun p => [p]) final_value_discount in
  binary_op Qplus 2 discounted_returns
            (binary_op Qmult 2 final_value_discount tiled_support).

Definition loss_target_support (experience : trajectory.Trajectory)
    : result (list (list Q)) :=
  if Nat.eqb (_n_step_update self) 1
  then next_time_steps <- _experience_to_transitions experience ;;
       Ok (one_step_target_support next_time_steps)
  else Ok (n_step_target_support experience).

End TargetSupport.

(** ** Division by a zero [delta_z]

    In the rationals [n / 0] is 0; the program divides floating-point
    numbers, where [n / 0] is infinite and [0 / 0] is not a number.  The
    part of the projection body from the division on is therefore given a
    second time over values that keep these cases apart.  Entries stay exact
    rationals as long as they are finite, and the inputs are finite. *)










Section FloatProjectionBody.

Variables supports weights : list (list Q).
Variable target_support : list Q.
Variable delta_z : Q.





End FloatProjectionBody.



(** A [target_support] that increases but is not equally spaced, with one
    source point beyond its last atom carrying all the weight. *)
Definition ex_uneven_target_support : list Q := [0; 2; 3].
Definition ex_beyond_supports : list (list Q) := [[5; 5; 5]].
Definition ex_single_weights : list (list Q) := [[1; 0; 0]].

(** The logits of the taken actions in [_loss]:
    [indices = tf.range(tf.shape(q_logits)[0])[:, None]],
    [reshaped_actions = tf.concat([indices, actions[:, None]], 1)],
    [chosen_action_logits = tf.gather_nd(q_logits, reshaped_actions)]. *)
Definition chosen_action_logits (q_logits : ndarray 3) (actions : list nat)
    : result (list (list Q)) :=
  let indices := map (fun b => [b]) (seq 0 (length q_logits)) in
  let reshaped_actions := concat_last indices (map (fun a => [a]) actions) in
  gather_nd q_logits reshaped_actions.

(** The target distribution of [_loss] on the 1-step branch:
    [project_distribution(target_support, next_q_distribution, self._support)],
    with [validate_args] left at its default. *)
Definition one_step_target_distribution (self : CategoricalDqnAgent)
    (batch_size : nat) (gamma reward_scale_factor : Q)
    (next_time_steps : list Q * list Q) (next_q_distribution : list (list Q))
    : result (list (list Q)) :=
  let target_support :=
    one_step_target_support self batch_size gamma reward_scale_factor
                            next_time_steps in
  project_distribution (matrix target_support) (matrix next_q_distribution)
                       (vector (_support self)) false.

(** An agent with the three atoms 0, 1 and 2, for examples. *)
Definition ex_agent : CategoricalDqnAgent :=
  {| _num_atoms := 3; _min_q_value := 0; _max_q_value := 2;
     _n_step_update := 1; _gamma := 1; _reward_scale_factor := 1 |}.

(** * Proofs *)

(** ** The running example of the docstring

    The intermediate tensors the comments of [project_distribution] list
    ("Ex:") for the running example, computed by the embedding. *)

Example ex_clipped_support :
  clipped_support ex_supports ex_target_support
  = [[[4; 4; 4; 6; 8]]; [[4; 4; 4; 5; 6]]].
Proof. reflexivity. Qed.

Example ex_tiled_support :
  tiled_support ex_supports ex_target_support
  = [[[[4; 4; 4; 6; 8]; [4; 4; 4; 6; 8]; [4; 4; 4; 6; 8];
       [4; 4; 4; 6; 8]; [4; 4; 4; 6; 8]];
      [[4; 4; 4; 5; 6]; [4; 4; 4; 5; 6]; [4; 4; 4; 5; 6];
       [4; 4; 4; 5; 6]; [4; 4; 4; 5; 6]]]].
Proof. reflexivity. Qed.

Example ex_reshaped_target_support :
  reshaped_target_support ex_supports ex_target_support
  = [[[4]; [5]; [6]; [7]; [8]]; [[4]; [5]; [6]; [7]; [8]]].
Proof. reflexivity. Qed.

Example ex_numerator :
  numerator ex_supports ex_target_support
  = [[[[0; 0; 0; 2; 4]; [1; 1; 1; 1; 3]; [2; 2; 2; 0; 2];
       [3; 3; 3; 1; 1]; [4; 4; 4; 2; 0]];
      [[0; 0; 0; 1; 2]; [1; 1; 1; 0; 1]; [2; 2; 2; 1; 0];
       [3; 3; 3; 2; 1]; [4; 4; 4; 3; 2]]]].
Proof. reflexivity. Qed.

Example ex_clipped_quotient :
  clipped_quotient ex_supports ex_target_support 1
  = [[[[1; 1; 1; 0; 0]; [0; 0; 0; 0; 0]; [0; 0; 0; 1; 0];
       [0; 0; 0; 0; 0]; [0; 0; 0; 0; 1]];
      [[1; 1; 1; 0; 0]; [0; 0; 0; 1; 0]; [0; 0; 0; 0; 1];
       [0; 0; 0; 0; 0]; [0; 0; 0; 0; 0]]]].
Proof. vm_compute. reflexivity. Qed.

(** ** List facts behind the tensor operations *)

Section ListFacts.

Context {A B C : Type}.

Lemma zip_with_length (f : A -> B -> C) xs ys :
  length xs = length ys -> length (zip_with f xs ys) = length xs.
Proof.
  revert ys; induction xs as [|x xs IH]; intros [|y ys] H; simpl in *; try lia.
  rewrite IH; lia.
Qed.

Lemma zip_with_nth (f : A -> B -> C) xs ys k da db dc :
  length xs = length ys -> (k < length xs)%nat ->
  nth k (zip_with f xs ys) dc = f (nth k xs da) (nth k ys db).
Proof.
  revert ys k; induction xs as [|x xs IH]; intros [|y ys] k H Hk; simpl in *; try lia.
  destruct k as [|k]; [reflexivity|]. apply IH; lia.
Qed.

Lemma zip_with_repeat_r (f : A -> B -> C) xs y :
  zip_with f xs (repeat y (length xs)) = map (fun x => f x y) xs.
Proof.
  induction xs as [|x xs IH]; simpl; [reflexivity|]. now rewrite IH.
Qed.

Lemma zip_with_repeat_n (f : A -> B -> C) xs y n :
  length xs = n -> zip_with f xs (repeat y n) = map (fun x => f x y) xs.
Proof. intros <-. apply zip_with_repeat_r. Qed.

Lemma zip_with_repeat_l (f : A -> B -> C) x ys :
  zip_with f (repeat x (length ys)) ys = map (f x) ys.
Proof.
  induction ys as [|y ys IH]; simpl; [reflexivity|]. now rewrite IH.
Qed.

Lemma zip_with_ext_in (f g : A -> B -> C) xs ys :
  Forall2 (fun x y => f x y = g x y) xs ys ->
  zip_with f xs ys = zip_with g xs ys.
Proof.
  induction 1 as [|x y xs ys H _ IH]; simpl; [reflexivity|]. now rewrite H, IH.
Qed.

Lemma zip_with_Forall (f : A -> B -> C) (P : C -> Prop) xs ys :
  (forall x y, P (f x y)) -> Forall P (zip_with f xs ys).
Proof.
  intros H. revert ys; induction xs as [|x xs IH]; intros [|y ys]; simpl;
    constructor; auto.
Qed.

Lemma map_zip_with {D} (g : C -> D) (f : A -> B -> C) xs ys :
  map g (zip_with f xs ys) = zip_with (fun x y => g (f x y)) xs ys.
Proof.
  revert ys; induction xs as [|x xs IH]; intros [|y ys]; simpl;
    try reflexivity. now rewrite IH.
Qed.

Lemma zip_with_map {A' B'} (f : A -> B -> C) (g : A' -> A) (h : B' -> B) xs ys :
  zip_with f (map g xs) (map h ys) = zip_with (fun x y => f (g x) (h y)) xs ys.
Proof.
  revert ys; induction xs as [|x xs IH]; intros [|y ys]; simpl;
    try reflexivity. now rewrite IH.
Qed.

Lemma broadcast_same_length (f : A -> B -> C) xs ys :
  length xs = length ys -> broadcast f xs ys = zip_with f xs ys.
Proof.
  intros H. unfold broadcast.
  destruct xs as [|x [|x' xs]], ys as [|y [|y' ys]]; simpl in *;
    try reflexivity; try discriminate.
Qed.

Lemma broadcast_singleton_r (f : A -> B -> C) xs y :
  broadcast f xs [y] = map (fun x => f x y) xs.
Proof.
  unfold broadcast. destruct xs as [|x [|x' xs]]; reflexivity.
Qed.

Lemma broadcast_singletons (f : A -> B -> C) x y :
  broadcast f [x] [y] = [f x y].
Proof. reflexivity. Qed.

End ListFacts.

Section TileFacts.

Context {A : Type}.

Lemma tile_axis_once (l : list A) : tile_axis 1 l = l.
Proof. unfold tile_axis; simpl. apply app_nil_r. Qed.

Lemma tile_axis_singleton (n : nat) (x : A) : tile_axis n [x] = repeat x n.
Proof.
  unfold tile_axis. induction n as [|n IH]; simpl; [reflexivity|]. now rewrite IH.
Qed.

Lemma map_seq_repeat (x : A) (n s : nat) :
  map (fun _ : nat => x) (seq s n) = repeat x n.
Proof.
  revert s; induction n as [|n IH]; intros s; simpl; [reflexivity|]. now rewrite IH.
Qed.

Lemma map_seq_nth (l : list A) (d : A) :
  map (fun k => nth k l d) (seq 0 (length l)) = l.
Proof.
  apply nth_ext with (d := d) (d' := d).
  - now rewrite length_map, length_seq.
  - intros n Hn. rewrite length_map, length_seq in Hn.
    rewrite nth_indep with (d' := nth 0 l d) by now rewrite length_map, length_seq.
    rewrite (map_nth (fun k => nth k l d) (seq 0 (length l)) 0%nat n).
    now rewrite seq_nth.
Qed.

Lemma firstn_skipn_concat (rows : list (list A)) (n k : nat) :
  Forall (fun r => length r = n) rows ->
  (k < length rows)%nat ->
  firstn n (skipn (k * n) (concat rows)) = nth k rows [].
Proof.
  intros Hrows. revert k.
  induction Hrows as [|r rows Hr _ IH]; intros k Hk; simpl in *; [lia|].
  destruct k as [|k]; simpl.
  - rewrite firstn_app, <- Hr, firstn_all, Nat.sub_diag. simpl. apply app_nil_r.
  - rewrite skipn_app, <- Hr.
    rewrite skipn_all2 by lia. simpl.
    replace (length r + k * length r - length r)%nat with (k * length r)%nat by lia.
    rewrite Hr. apply IH. lia.
Qed.

End TileFacts.

Section ReshapeFacts.

Lemma hd_firstn_skipn (l : list Q) (k : nat) (d : Q) :
  hd d (firstn 1 (skipn k l)) = nth k l d.
Proof.
  revert l; induction k as [|k IH]; intros [|x l]; simpl; try reflexivity.
  apply IH.
Qed.

Lemma unflatten_vector (l : list Q) :
  unflatten [length l] l = l.
Proof.
  simpl.
  transitivity (map (fun k => nth k l 0) (seq 0 (length l)));
    [| apply map_seq_nth].
  apply map_ext. intros k. rewrite Nat.mul_1_r. apply hd_firstn_skipn.
Qed.

Lemma unflatten_column (l : list Q) :
  unflatten [length l; 1%nat] l = map (fun z => [z]) l.
Proof.
  simpl.
  transitivity (map (fun z => [z]) (map (fun k => nth k l 0) (seq 0 (length l))));
    [| now rewrite map_seq_nth].
  rewrite map_map. apply map_ext. intros k. rewrite Nat.mul_1_r. f_equal.
  rewrite <- (hd_firstn_skipn l k 0).
  destruct (skipn k l); reflexivity.
Qed.

Lemma unflatten_matrix (rows : list (list Q)) (b n : nat) :
  b = length rows ->
  Forall (fun r => length r = n) rows ->
  unflatten [b; n] (concat rows) = rows.
Proof.
  intros -> Hrows. simpl.
  transitivity (map (fun k => nth k rows []) (seq 0 (length rows)));
    [| apply map_seq_nth].
  apply map_ext_in. intros k Hk. apply in_seq in Hk.
  rewrite Nat.mul_1_r, firstn_skipn_concat by (assumption || lia).
  assert (Hlen : length (nth k rows []) = n).
  { rewrite Forall_forall in Hrows. apply Hrows, nth_In. lia. }
  rewrite <- Hlen. apply (unflatten_vector (nth k rows [])).
Qed.

Lemma unflatten_columns (ts : list Q) (b : nat) :
  unflatten [b; length ts; 1%nat] (concat (repeat ts b))
  = repeat (map (fun z => [z]) ts) b.
Proof.
  transitivity (map (fun _ : nat => map (fun z => [z]) ts) (seq 0 b));
    [| apply map_seq_repeat].
  change (unflatten [b; length ts; 1%nat] (concat (repeat ts b)))
    with (map (fun k => unflatten [length ts; 1%nat]
                          (firstn (size_of [length ts; 1%nat])
                             (skipn (k * size_of [length ts; 1%nat])
                                (concat (repeat ts b)))))
              (seq 0 b)).
  apply map_ext_in. intros k Hk. apply in_seq in Hk.
  replace (size_of [length ts; 1%nat]) with (length ts) by (simpl; lia).
  rewrite firstn_skipn_concat with (n := length ts).
  - rewrite nth_repeat_lt by lia. apply (unflatten_column ts).
  - apply Forall_forall. intros r Hr. now apply repeat_spec in Hr; subst.
  - rewrite repeat_length. lia.
Qed.

Lemma flatten_vector (l : list Q) : flatten 1 l = l.
Proof.
  simpl. induction l as [|x l IH]; simpl; [reflexivity|]. now rewrite IH.
Qed.

Lemma flatten_matrix (m : list (list Q)) : flatten 2 m = concat m.
Proof.
  change (flatten 2 m) with (concat (map (flatten 1) m)).
  f_equal. rewrite <- (map_id m) at 2. apply map_ext. apply flatten_vector.
Qed.

End ReshapeFacts.

Section ClosedForm.

Variables supports weights : list (list Q).
Variable target_support : list Q.
Variable delta_z : Q.

Let clip x := clip_by_value x (v_min target_support) (v_max target_support).

Lemma tiled_support_eq :
  tiled_support supports target_support
  = [map (fun row => repeat (map clip row) (length target_support)) supports].
Proof.
  unfold tiled_support, clipped_support, num_dims.
  cbn [tile unary_op map]. cbn [ndarray].
  rewrite (tile_axis_once [_]). f_equal.
  rewrite tile_axis_once, !map_map. apply map_ext. intros row.
  cbn [map]. rewrite tile_axis_singleton. f_equal.
  rewrite tile_axis_once, map_id. reflexivity.
Qed.

Lemma reshaped_target_support_eq :
  reshaped_target_support supports target_support
  = repeat (map (fun z => [z]) target_support) (length supports).
Proof.
  unfold reshaped_target_support, reshape, batch_size, num_dims.
  rewrite flatten_matrix. cbn [tile]. cbn [ndarray].
  assert (E : map (fun l : list Q => tile_axis 1 (map (fun x : Q => x) l))
                  (map (fun z => [z]) target_support)
              = map (fun z => [z]) target_support).
  { rewrite map_map. apply map_ext. intros z. reflexivity. }
  rewrite E. clear E. unfold tile_axis.
  assert (F : concat (concat (repeat (map (fun z => [z]) target_support)
                                     (length supports)))
              = concat (repeat target_support (length supports))).
  { induction (length supports) as [|b IH]; simpl; [reflexivity|].
    rewrite concat_app, IH. f_equal.
    clear. induction target_support as [|z l IHl]; simpl; [reflexivity|].
    now rewrite IHl. }
  rewrite F. apply unflatten_columns.
Qed.

Lemma numerator_eq :
  numerator supports target_support
  = [map (fun row => map (fun z => map (fun x => Qabs (clip x - z)) row)
                         target_support)
         supports].
Proof.
  unfold numerator. rewrite tiled_support_eq, reshaped_target_support_eq.
  cbn [binary_op]. rewrite broadcast_singletons.
  rewrite broadcast_same_length by now rewrite length_map, repeat_length.
  rewrite <- (length_map (fun row => repeat (map clip row) (length target_support))
                         supports).
  rewrite zip_with_repeat_r, map_map.
  cbn [unary_op map]. f_equal. rewrite map_map. apply map_ext. intros row.
  rewrite broadcast_same_length by now rewrite length_map, repeat_length.
  rewrite <- (length_map (fun z : Q => [z]) target_support) at 1.
  rewrite zip_with_repeat_l, !map_map. apply map_ext. intros z.
  rewrite broadcast_singleton_r, !map_map. reflexivity.
Qed.

Lemma clipped_quotient_eq :
  clipped_quotient supports target_support delta_z
  = [map (fun row => map (fun z => map (overlap target_support delta_z z) row)
                         target_support)
         supports].
Proof.
  unfold clipped_quotient, quotient. rewrite numerator_eq.
  cbn [unary_op map]. f_equal. rewrite !map_map. apply map_ext. intros row.
  rewrite !map_map. apply map_ext. intros z.
  rewrite !map_map. reflexivity.
Qed.

Hypothesis rows_agree :
  Forall2 (fun srow wrow => length srow = length wrow) supports weights.

Lemma inner_prod_eq :
  inner_prod supports weights target_support delta_z
  = [zip_with
       (fun srow wrow =>
          map (fun z => zip_with Qmult
                          (map (overlap target_support delta_z z) srow) wrow)
              target_support)
       supports weights].
Proof.
  unfold inner_prod, weights_3d. rewrite clipped_quotient_eq.
  cbn [binary_op]. rewrite broadcast_singletons. f_equal.
  rewrite broadcast_same_length
    by (rewrite !length_map; eapply Forall2_length; eassumption).
  rewrite zip_with_map. apply zip_with_ext_in.
  eapply Forall2_impl; [|exact rows_agree]. cbv beta. intros srow wrow Hlen.
  rewrite broadcast_singleton_r, map_map. apply map_ext. intros z.
  apply broadcast_same_length. now rewrite length_map.
Qed.

Lemma projection_eq :
  projection supports weights target_support delta_z
  = zip_with
      (fun srow wrow =>
         map (fun z => reduce_sum
                         (zip_with Qmult
                            (map (overlap target_support delta_z z) srow) wrow))
             target_support)
      supports weights.
Proof.
  unfold projection, reshape, batch_size, num_dims. rewrite inner_prod_eq.
  set (rows := zip_with
                 (fun srow wrow =>
                    map (fun z => reduce_sum
                           (zip_with Qmult
                              (map (overlap target_support delta_z z) srow) wrow))
                        target_support)
                 supports weights).
  assert (Hrows : Forall (fun r => length r = length target_support) rows
                  /\ length rows = length supports).
  { subst rows. split.
    - apply zip_with_Forall. intros srow wrow. now rewrite !length_map.
    - apply zip_with_length. eapply Forall2_length; eassumption. }
  destruct Hrows as [Hrows Hlen].
  assert (E : flatten 3 (map (map (map reduce_sum))
                [zip_with
                   (fun srow wrow =>
                      map (fun z => zip_with Qmult
                             (map (overlap target_support delta_z z) srow) wrow)
                          target_support)
                   supports weights])
              = concat rows).
  { change (flatten 3 ?t) with (concat (map (flatten 2) t)).
    cbn [map concat]. rewrite app_nil_r, flatten_matrix. f_equal.
    subst rows. rewrite map_zip_with. apply zip_with_ext_in.
    eapply Forall2_impl; [|exact rows_agree]. cbv beta. intros srow wrow _.
    now rewrite map_map. }
  rewrite E. apply unflatten_matrix; [now symmetry | exact Hrows].
Qed.

End ClosedForm.

Lemma reduce_all_map_true {A} (f : A -> bool) (P : A -> Prop) (l : list A) :
  (forall x, f x = true <-> P x) ->
  reduce_all (map f l) = true <-> Forall P l.
Proof.
  intros H. unfold reduce_all. induction l as [|x l IH]; simpl.
  - split; [constructor | reflexivity].
  - rewrite andb_true_iff, IH, H. split.
    + intros [Hx Hl]. now constructor.
    + intros Hf. inversion Hf; subst. now split.
Qed.

Lemma greater_true (a b : Q) : greater a b = true <-> b < a.
Proof.
  unfold greater. rewrite negb_true_iff. split.
  - intros H. apply Qnot_le_lt. intros Hle.
    apply Qle_bool_iff in Hle. congruence.
  - intros H. destruct (Qle_bool a b) eqn:E; [|reflexivity].
    apply Qle_bool_iff in E. exfalso. lra.
Qed.

Lemma equal_true (a b : Q) : equal a b = true <-> a == b.
Proof. apply Qeq_bool_iff. Qed.

Lemma monotonic_check (target_support : list Q) :
  reduce_all (map (fun d => greater d 0) (deltas_of target_support)) = true
  <-> monotonically_increasing target_support.
Proof. apply reduce_all_map_true. intros d. apply greater_true. Qed.

Lemma spacing_check (target_support : list Q) :
  reduce_all (map (fun d => equal d (delta_z_of target_support))
                  (deltas_of target_support)) = true
  <-> equally_spaced target_support.
Proof. apply reduce_all_map_true. intros d. apply equal_true. Qed.

(** What [project_distribution] does once the shapes agree: the static
    assertions pass, and only the validated contents of [target_support]
    can still raise. *)
Lemma project_distribution_shapes_agree supports weights target_support validate_args :
  shapes_agree supports weights target_support ->
  project_distribution (matrix supports) (matrix weights) (vector target_support)
                       validate_args
  = if validate_args
    then (Assert (reduce_all (map (fun d => greater d 0) (deltas_of target_support))) ;;;
          Assert (reduce_all (map (fun d => equal d (delta_z_of target_support))
                                  (deltas_of target_support))) ;;;
          Ok (projection supports weights target_support (delta_z_of target_support)))
    else Ok (projection supports weights target_support (delta_z_of target_support)).
Proof.
  intros (HB & HW & Hs & Hw & HN).
  destruct supports as [|srow ss]; [simpl in HB; lia|].
  destruct weights as [|wrow ws]; [simpl in HW; lia|].
  destruct target_support as [|z0 [|z1 zs]]; simpl in HN; try lia.
  inversion Hs as [|? ? Hs0 _]; inversion Hw as [|? ? Hw0 _]; subst.
  unfold project_distribution.
  change (adjacent_differences (vector (z0 :: z1 :: zs)))
    with (Ok (vector (deltas_of (z0 :: z1 :: zs)))).
  cbn [bind].
  assert (Hd : exists d ds, deltas_of (z0 :: z1 :: zs) = d :: ds).
  { unfold deltas_of. cbn [tl removelast]. destruct zs as [|z2 zs'].
    - eexists; eexists; reflexivity.
    - unfold broadcast. cbn [removelast]. destruct zs' as [|z3 zs''].
      + eexists; eexists; reflexivity.
      + cbn [removelast zip_with]. eexists; eexists; reflexivity. }
  destruct Hd as (d & ds & Hd).
  unfold delta_z_of. rewrite Hd.
  unfold matrix, vector. cbn [getitem0 bind hd].
  unfold assert_is_compatible_with, assert_has_rank, shape, dynamic_shape.
  cbn [ndims numpy dims hd map is_compatible_with dims_compatible
       dimension_is_compatible_with length].
  simpl in HW. injection HW as HW.
  rewrite HW, Hs0, Hw0. cbn [length]. rewrite !Nat.eqb_refl.
  cbn [andb bind as_matrix as_vector as_scalar].
  destruct validate_args; [|reflexivity].
  unfold validate_deps, dynamic_shape.
  cbn [ndims numpy dims hd zip_with map nth length].
  rewrite HW, Hs0, Hw0. cbn [length]. rewrite !Nat.eqb_refl.
  change (reduce_all [true; true]) with true.
  change (reduce_all [true]) with true.
  change (Assert true) with (Ok tt). cbn [bind].
  repeat match goal with
         | |- context [Assert ?c] => destruct c; cbn [Assert bind]
         end; reflexivity.
Qed.

Lemma dims_length (r : nat) (x : ndarray r) : length (dims r x) = r.
Proof.
  induction r as [|r IH]; [reflexivity|]. simpl. now rewrite IH.
Qed.

Lemma dims_compatible_length (ds es : list Dimension) :
  dims_compatible ds es = true -> length ds = length es.
Proof.
  revert es; induction ds as [|d ds IH]; intros [|e es] H; simpl in *;
    try discriminate; [reflexivity|].
  apply andb_true_iff in H. destruct H as [_ H]. now rewrite (IH es H).
Qed.

Lemma is_compatible_with_ndims (s t : Tensor) :
  is_compatible_with (shape s) (shape t) = true -> ndims s = ndims t.
Proof.
  unfold shape. cbn [is_compatible_with]. intros H.
  apply dims_compatible_length in H.
  now rewrite !length_map, !dims_length in H.
Qed.

(** Past the three shape assertions [supports] and [weights] have rank 2 and
    [target_support] has rank 1: reading them at these ranks cannot raise. *)
Lemma shape_assertions_fix_ranks (supports weights target_support supports_0 : Tensor) :
  assert_is_compatible_with (shape supports) (shape weights) = Ok tt ->
  getitem0 supports = Ok supports_0 ->
  assert_is_compatible_with (shape supports_0) (shape target_support) = Ok tt ->
  assert_has_rank (shape target_support) 1 = Ok tt ->
  (exists m, as_matrix supports = Ok m) /\
  (exists m, as_matrix weights = Ok m) /\
  (exists v, as_vector target_support = Ok v).
Proof.
  unfold assert_is_compatible_with, assert_has_rank.
  intros Hsw Hs0 Hst Ht.
  destruct (is_compatible_with (shape supports) (shape weights)) eqn:Esw;
    [|discriminate].
  destruct (is_compatible_with (shape supports_0) (shape target_support)) eqn:Est;
    [|discriminate].
  apply is_compatible_with_ndims in Esw, Est.
  unfold shape in Ht. rewrite length_map, dims_length in Ht.
  destruct (Nat.eqb_spec (ndims target_support) 1) as [E|_]; [|discriminate].
  assert (Hs : ndims supports = 2%nat).
  { destruct supports as [[|r] l]; [discriminate|].
    cbn [getitem0] in Hs0. destruct l as [|x l]; [discriminate|].
    injection Hs0 as <-. cbn [ndims] in *. congruence. }
  assert (Hw : ndims weights = 2%nat) by congruence.
  clear - Hs Hw E.
  destruct supports as [rs ls], weights as [rw lw], target_support as [rt lt].
  cbn [ndims] in *. subst rs rw rt. repeat split; eexists; reflexivity.
Qed.

(** ** Arithmetic of the tent kernel *)

Lemma Qabs_spec (x : Q) : 0 <= x /\ Qabs x == x \/ x <= 0 /\ Qabs x == - x.
Proof. apply Qabs_case; intros H; [left|right]; split; auto; reflexivity. Qed.

(** Names every [Qmax], [Qmin] and [Qabs] of the goal and its hypotheses,
    keeping only their characterising property, so that [lra] can split on
    them. *)
Ltac piecewise :=
  unfold clip_by_value in *;
  repeat match goal with
  | |- context [Qmax ?a ?b] =>
      let m := fresh "m" in
      pose proof (Q.max_spec a b); set (m := Qmax a b) in *; clearbody m
  | |- context [Qmin ?a ?b] =>
      let m := fresh "m" in
      pose proof (Q.min_spec a b); set (m := Qmin a b) in *; clearbody m
  | |- context [Qabs ?a] =>
      let m := fresh "m" in
      pose proof (Qabs_spec a); set (m := Qabs a) in *; clearbody m
  | _ : context [Qmax ?a ?b] |- _ =>
      let m := fresh "m" in
      pose proof (Q.max_spec a b); set (m := Qmax a b) in *; clearbody m
  | _ : context [Qmin ?a ?b] |- _ =>
      let m := fresh "m" in
      pose proof (Q.min_spec a b); set (m := Qmin a b) in *; clearbody m
  | _ : context [Qabs ?a] |- _ =>
      let m := fresh "m" in
      pose proof (Qabs_spec a); set (m := Qabs a) in *; clearbody m
  end;
  lra.

#[local] Instance clip_by_value_wd :
  Proper (Qeq ==> Qeq ==> Qeq ==> Qeq) clip_by_value.
Proof.
  intros t t' Ht lo lo' Hlo hi hi' Hhi. unfold clip_by_value.
  now rewrite Ht, Hlo, Hhi.
Qed.

Lemma clip_by_value_range (t lo hi : Q) :
  lo <= hi -> lo <= clip_by_value t lo hi <= hi.
Proof. intros H. piecewise. Qed.

Lemma clip_by_value_below (t lo hi : Q) :
  lo <= hi -> t <= lo -> clip_by_value t lo hi == lo.
Proof. intros H H'. piecewise. Qed.

Lemma clip_by_value_above (t lo hi : Q) :
  lo <= hi -> hi <= t -> clip_by_value t lo hi == hi.
Proof. intros H H'. piecewise. Qed.

Lemma clip_by_value_inside (t lo hi : Q) :
  lo <= t <= hi -> clip_by_value t lo hi == t.
Proof. intros H. piecewise. Qed.

Lemma Qabs_div (y d : Q) : 0 < d -> Qabs y / d == Qabs (y / d).
Proof.
  intros Hd. unfold Qdiv. rewrite Qabs_Qmult.
  rewrite (Qabs_pos (/ d)); [reflexivity|].
  apply Qlt_le_weak, Qinv_lt_0_compat, Hd.
Qed.

#[local] Instance tent_wd : Proper (Qeq ==> Qeq ==> Qeq) tent.
Proof.
  intros d d' Hd y y' Hy. unfold tent. now rewrite Hd, Hy.
Qed.

Lemma tent_unit (d y u : Q) :
  0 < d -> y / d == u -> tent d y == clip_by_value (1 - Qabs u) 0 1.
Proof.
  intros Hd Hu. unfold tent. now rewrite Qabs_div, Hu.
Qed.

Lemma tent_range (d y : Q) : 0 <= tent d y <= 1.
Proof. unfold tent. apply clip_by_value_range. lra. Qed.

Lemma tent_centre (d y : Q) : 0 < d -> y == 0 -> tent d y == 1.
Proof.
  intros Hd Hy. rewrite (tent_unit d y 0 Hd).
  - piecewise.
  - rewrite Hy. field. lra.
Qed.

Lemma tent_far (d y k : Q) :
  0 < d -> y == k * d -> (1 <= k \/ k <= -1) -> tent d y == 0.
Proof.
  intros Hd Hy Hk. rewrite (tent_unit d y k Hd).
  - piecewise.
  - rewrite Hy. field. lra.
Qed.

Lemma tent_split (u : Q) :
  clip_by_value (1 - Qabs u) 0 1 + clip_by_value u 0 1
  == clip_by_value (u + 1) 0 1.
Proof. piecewise. Qed.

Lemma arith_from_wd (a a' d : Q) (l : list Q) :
  a == a' -> arith_from a d l -> arith_from a' d l.
Proof.
  revert a a'; induction l as [|z l IH]; intros a a' Ha; simpl; [trivial|].
  intros [Hz Hl]. split; [now rewrite <- Ha|].
  apply (IH (a + d)); [now rewrite Ha | exact Hl].
Qed.

Lemma index_succ (k : nat) :
  inject_Z (Z.of_nat (S k)) == inject_Z (Z.of_nat k) + 1.
Proof.
  rewrite Nat2Z.inj_succ. unfold Z.succ. rewrite inject_Z_plus. reflexivity.
Qed.

Lemma index_gap (i j : nat) :
  (i < j)%nat -> inject_Z (Z.of_nat i) + 1 <= inject_Z (Z.of_nat j).
Proof.
  intros H. change 1 with (inject_Z 1).
  rewrite <- inject_Z_plus, <- Zle_Qle. lia.
Qed.

Lemma arith_from_nth (a d : Q) (l : list Q) (k : nat) :
  arith_from a d l -> (k < length l)%nat ->
  nth k l 0 == a + inject_Z (Z.of_nat k) * d.
Proof.
  revert a k; induction l as [|z l IH]; intros a k H Hk; simpl in *; [lia|].
  destruct H as [Hz Hl]. destruct k as [|k].
  - rewrite Hz. change (inject_Z (Z.of_nat 0)) with 0. lra.
  - rewrite (IH (a + d) k Hl) by lia. rewrite index_succ. lra.
Qed.

Lemma last_as_nth (l : list Q) (d : Q) : last l d = nth (length l - 1) l d.
Proof.
  induction l as [|z [|z' l] IH]; try reflexivity.
  change (last (z :: z' :: l) d) with (last (z' :: l) d). rewrite IH.
  simpl. now rewrite Nat.sub_0_r.
Qed.

Lemma arith_from_last (a d : Q) (l : list Q) :
  arith_from a d l -> l <> [] ->
  last l 0 == a + inject_Z (Z.of_nat (length l - 1)) * d.
Proof.
  intros H Hne. rewrite last_as_nth.
  apply arith_from_nth; [exact H|].
  destruct l; [congruence|simpl; lia].
Qed.

Lemma arith_from_last_ge (a d : Q) (l : list Q) :
  0 < d -> arith_from a d l -> l <> [] -> a <= last l 0.
Proof.
  intros Hd H Hne. rewrite (arith_from_last a d l H Hne).
  assert (0 <= inject_Z (Z.of_nat (length l - 1))).
  { change 0 with (inject_Z 0). rewrite <- Zle_Qle. lia. }
  assert (0 <= inject_Z (Z.of_nat (length l - 1)) * d).
  { apply Qmult_le_0_compat; lra. }
  lra.
Qed.

Lemma deltas_of_cons (a b : Q) (l : list Q) :
  deltas_of (a :: b :: l) = (b - a) :: deltas_of (b :: l).
Proof.
  assert (Hlen : forall l' : list Q, l' <> [] ->
                 length (tl l') = length (removelast l')).
  { intros l' Hne. rewrite removelast_firstn_len, length_firstn.
    destruct l'; [congruence | simpl; lia]. }
  unfold deltas_of. rewrite !broadcast_same_length by (apply Hlen; discriminate).
  reflexivity.
Qed.

Lemma equally_spaced_arith_from (a d : Q) (l : list Q) :
  Forall (fun e => e == d) (deltas_of (a :: l)) -> arith_from a d (a :: l).
Proof.
  revert a; induction l as [|b l IH]; intros a H.
  - simpl. split; [reflexivity | exact I].
  - rewrite deltas_of_cons in H. inversion H as [|? ? Hb Hl]; subst.
    split; [reflexivity|].
    apply (arith_from_wd b); [lra | apply IH, Hl].
Qed.

Lemma valid_target_support_arith (target_support : list Q) :
  (2 <= length target_support)%nat ->
  valid_target_support target_support ->
  0 < delta_z_of target_support /\
  arith_from (v_min target_support) (delta_z_of target_support) target_support.
Proof.
  intros HN [Hmono Hspaced].
  destruct target_support as [|z0 [|z1 zs]]; simpl in HN; try lia.
  unfold monotonically_increasing in Hmono. unfold equally_spaced in Hspaced.
  split.
  - unfold delta_z_of. rewrite deltas_of_cons in *.
    inversion Hmono; subst. assumption.
  - apply equally_spaced_arith_from. exact Hspaced.
Qed.

(** ** Sums *)

Lemma reduce_sum_cons (x : Q) (l : list Q) : reduce_sum (x :: l) = x + reduce_sum l.
Proof. reflexivity. Qed.

Lemma reduce_sum_ext (xs ys : list Q) :
  Forall2 Qeq xs ys -> reduce_sum xs == reduce_sum ys.
Proof.
  induction 1 as [|x y xs ys H _ IH]; [reflexivity|].
  rewrite !reduce_sum_cons, H, IH. reflexivity.
Qed.

Lemma reduce_sum_nonneg (xs : list Q) :
  Forall (fun x => 0 <= x) xs -> 0 <= reduce_sum xs.
Proof.
  induction 1 as [|x xs H _ IH]; [unfold reduce_sum; simpl; lra|].
  rewrite reduce_sum_cons. lra.
Qed.

(** Summing the rows of a table and then the totals, or first down the
    columns: [sum_j sum_i f j i = sum_i sum_j f j i]. *)
Lemma reduce_sum_exchange {A B} (f : A -> B -> Q) (js : list A) (ks : list B) :
  reduce_sum (map (fun j => reduce_sum (map (f j) ks)) js)
  == reduce_sum (map (fun i => reduce_sum (map (fun j => f j i) js)) ks).
Proof.
  induction js as [|j js IH]; cbn [map].
  - unfold reduce_sum at 1. simpl.
    induction ks as [|i ks IHi]; [reflexivity|].
    cbn [map]. rewrite reduce_sum_cons, <- IHi. unfold reduce_sum; simpl. lra.
  - rewrite reduce_sum_cons, IH. clear IH.
    induction ks as [|i ks IHi]; [unfold reduce_sum; simpl; lra|].
    cbn [map]. rewrite !reduce_sum_cons, <- IHi. lra.
Qed.

Lemma zip_with_as_map {A B C} (f : A -> B -> C) (xs : list A) (ys : list B) :
  zip_with f xs ys = map (fun p => f (fst p) (snd p)) (combine xs ys).
Proof.
  revert ys; induction xs as [|x xs IH]; intros [|y ys]; simpl; try reflexivity.
  now rewrite IH.
Qed.

(** A list whose only non-zero entry is [v], at index [j]. *)
Lemma reduce_sum_single (xs : list Q) (j : nat) (v : Q) :
  (j < length xs)%nat ->
  (forall i, (i < length xs)%nat ->
             nth i xs 0 == if Nat.eqb i j then v else 0) ->
  reduce_sum xs == v.
Proof.
  revert j; induction xs as [|x xs IH]; intros j Hj H; simpl in Hj; [lia|].
  rewrite reduce_sum_cons. destruct j as [|j].
  - rewrite (H 0%nat) by (simpl; lia). simpl.
    assert (E : reduce_sum xs == 0).
    { clear IH Hj. assert (H' : forall i, (i < length xs)%nat -> nth i xs 0 == 0).
      { intros i Hi. apply (H (S i)). simpl; lia. }
      clear H. induction xs as [|y ys IHy]; [reflexivity|].
      rewrite reduce_sum_cons, (H' 0%nat) by (simpl; lia). simpl.
      rewrite IHy; [lra|]. intros i Hi. apply (H' (S i)). simpl; lia. }
    rewrite E. lra.
  - rewrite (H 0%nat) by (simpl; lia). simpl.
    rewrite (IH j); [lra | lia |].
    intros i Hi. apply (H (S i)). simpl; lia.
Qed.

(** ** The tent kernel over a uniformly spaced support *)

(** Partition of unity: the tents centred at the atoms of [l] add up, at a
    point [c] not beyond the last atom, to the clamped position of [c]
    relative to the first atom. *)
Lemma tent_sum_upto (a d c : Q) (l : list Q) :
  0 < d -> l <> [] -> arith_from a d l -> c <= last l 0 ->
  reduce_sum (map (fun z => tent d (c - z)) l)
  == clip_by_value ((c - a) / d + 1) 0 1.
Proof.
  intros Hd. revert a. induction l as [|z l IH]; intros a Hne H Hc;
    [congruence|].
  destruct H as [Hz Hl]. cbn [map]. rewrite reduce_sum_cons.
  rewrite (tent_unit d (c - z) ((c - a) / d) Hd) by now rewrite Hz.
  destruct l as [|z' l'].
  - cbn [map]. unfold reduce_sum. cbn [fold_right]. simpl in Hc.
    assert (Hu : (c - a) / d <= 0).
    { apply Qle_shift_div_r; [exact Hd | lra]. }
    piecewise.
  - rewrite (IH (a + d)); [| discriminate | exact Hl | exact Hc].
    assert (E : (c - (a + d)) / d + 1 == (c - a) / d) by (field; lra).
    rewrite E. apply tent_split.
Qed.

Lemma tent_sum_one (a d c : Q) (l : list Q) :
  0 < d -> l <> [] -> arith_from a d l -> a <= c <= last l 0 ->
  reduce_sum (map (fun z => tent d (c - z)) l) == 1.
Proof.
  intros Hd Hne H [Ha Hc]. rewrite (tent_sum_upto a d c l Hd Hne H Hc).
  assert (Hu : 0 <= (c - a) / d).
  { apply Qle_shift_div_l; [exact Hd | lra]. }
  piecewise.
Qed.

(** Between two atoms the tent is 1 on the diagonal and 0 elsewhere. *)
Lemma tent_atoms (a d : Q) (l : list Q) (i j : nat) :
  0 < d -> arith_from a d l -> (i < length l)%nat -> (j < length l)%nat ->
  tent d (nth i l 0 - nth j l 0) == if Nat.eqb i j then 1 else 0.
Proof.
  intros Hd H Hi Hj.
  rewrite (arith_from_nth a d l i H Hi), (arith_from_nth a d l j H Hj).
  destruct (Nat.eqb_spec i j) as [->|Hne].
  - apply tent_centre; [exact Hd | lra].
  - apply (tent_far d _ (inject_Z (Z.of_nat i) - inject_Z (Z.of_nat j)) Hd);
      [lra|].
    destruct (Nat.lt_ge_cases i j) as [Hlt|Hge].
    + right. pose proof (index_gap i j Hlt). lra.
    + left. assert (Hlt : (j < i)%nat) by lia.
      pose proof (index_gap j i Hlt). lra.
Qed.

Lemma clamp_clip_by_value (x lo hi : Q) : clamp x lo hi == clip_by_value x lo hi.
Proof. unfold clamp, clip_by_value. apply Q.max_comm. Qed.

Lemma delta_z_of_nth (target_support : list Q) :
  (2 <= length target_support)%nat ->
  delta_z_of target_support = nth 1 target_support 0 - nth 0 target_support 0.
Proof.
  intros H. destruct target_support as [|z0 [|z1 zs]]; simpl in H; try lia.
  unfold delta_z_of. rewrite deltas_of_cons. reflexivity.
Qed.

Lemma reduce_sum_map_ext {A} (f g : A -> Q) (l : list A) :
  (forall x, In x l -> f x == g x) ->
  reduce_sum (map f l) == reduce_sum (map g l).
Proof.
  intros H. induction l as [|x l IH]; [reflexivity|].
  cbn [map]. rewrite !reduce_sum_cons, (H x), IH; [reflexivity| |now left].
  intros y Hy. apply H. now right.
Qed.

Lemma zip_with_as_seq {A B C} (f : A -> B -> C) (xs : list A) (ys : list B)
    (da : A) (db : B) :
  length xs = length ys ->
  zip_with f xs ys = map (fun i => f (nth i xs da) (nth i ys db)) (seq 0 (length xs)).
Proof.
  revert ys; induction xs as [|x xs IH]; intros [|y ys] H; simpl in *;
    try reflexivity; try discriminate.
  f_equal. rewrite <- seq_shift, map_map. apply IH. lia.
Qed.

Lemma nth_map_in {A B} (f : A -> B) (l : list A) (k : nat) (da : A) (db : B) :
  (k < length l)%nat -> nth k (map f l) db = f (nth k l da).
Proof.
  intros H. rewrite nth_indep with (d' := f da) by now rewrite length_map.
  apply map_nth.
Qed.

(** An entry of the projection body, read off its closed form. *)
Lemma projection_nth (supports weights : list (list Q)) (target_support : list Q)
    (delta_z : Q) (row j : nat) :
  Forall2 (fun srow wrow => length srow = length wrow) supports weights ->
  (row < length supports)%nat -> (j < length target_support)%nat ->
  nth j (nth row (projection supports weights target_support delta_z) []) 0
  = reduce_sum
      (zip_with Qmult
         (map (overlap target_support delta_z (nth j target_support 0))
              (nth row supports []))
         (nth row weights [])).
Proof.
  intros Hrows Hrow Hj. rewrite projection_eq by exact Hrows.
  rewrite (zip_with_nth _ supports weights row [] [] [])
    by (try exact Hrow; eapply Forall2_length; eassumption).
  rewrite (nth_map_in _ target_support j 0 0 Hj). reflexivity.
Qed.

Lemma shapes_agree_rows (supports weights : list (list Q)) (target_support : list Q) :
  shapes_agree supports weights target_support ->
  Forall2 (fun srow wrow => length srow = length wrow) supports weights.
Proof.
  intros (_ & HW & Hs & Hw & _). revert weights HW Hw.
  induction Hs as [|srow ss Hs0 _ IH]; intros [|wrow ws] HW Hw;
    simpl in HW; try discriminate; constructor.
  - inversion Hw; subst. congruence.
  - apply IH; [lia | now inversion Hw].
Qed.

Lemma shapes_agree_row_length (supports weights : list (list Q))
    (target_support : list Q) (row : nat) :
  shapes_agree supports weights target_support ->
  (row < length supports)%nat ->
  length (nth row supports []) = length target_support /\
  length (nth row weights []) = length target_support.
Proof.
  intros (_ & HW & Hs & Hw & _) Hrow. rewrite Forall_forall in Hs, Hw. split.
  - apply Hs, nth_In, Hrow.
  - apply Hw, nth_In. lia.
Qed.

(** With validation off, or with a valid [target_support], the call returns
    the projection body. *)
Lemma project_distribution_returns supports weights target_support validate_args :
  shapes_agree supports weights target_support ->
  validate_args = false \/ valid_target_support target_support ->
  project_distribution (matrix supports) (matrix weights) (vector target_support)
                       validate_args
  = Ok (projection supports weights target_support (delta_z_of target_support)).
Proof.
  intros Hshapes Hvalid.
  rewrite project_distribution_shapes_agree by exact Hshapes.
  destruct validate_args; [|reflexivity].
  destruct Hvalid as [Hfalse | [Hmono Hspaced]]; [discriminate|].
  apply monotonic_check in Hmono. apply spacing_check in Hspaced.
  rewrite Hmono, Hspaced. reflexivity.
Qed.

(** ** Properties of [project_distribution] *)

(** C1.  For every batch row and every target atom [j], the value returned
    by [project_distribution] has
    [projected[row, j] = sum_i clamp(1 - |clip(supports[row, i], v_min, v_max)
    - target_support[j]| / delta_z, 0, 1) * weights[row, i]].  The call
    returns whenever the shapes agree and validation is off or
    [target_support] is valid. *)
Theorem project_distribution_entry supports weights target_support validate_args :
  shapes_agree supports weights target_support ->
  validate_args = false \/ valid_target_support target_support ->
  exists projected,
    project_distribution (matrix supports) (matrix weights)
                         (vector target_support) validate_args
    = Ok projected /\
    forall row j,
      (row < length supports)%nat -> (j < length target_support)%nat ->
      nth j (nth row projected []) 0
      == projected_entry supports weights target_support row j.
Proof.
  intros Hshapes Hvalid. eexists. split.
  - apply project_distribution_returns; assumption.
  - intros row j Hrow Hj.
    pose proof (shapes_agree_rows _ _ _ Hshapes) as Hrows.
    destruct (shapes_agree_row_length _ _ _ row Hshapes Hrow) as [Hs Hw].
    destruct Hshapes as (_ & _ & _ & _ & HN).
    rewrite projection_nth by assumption.
    unfold projected_entry, sum_over.
    rewrite (zip_with_as_seq Qmult _ _ 0 0) by (rewrite length_map; congruence).
    rewrite length_map. apply reduce_sum_map_ext. intros i Hi.
    apply in_seq in Hi.
    rewrite (nth_map_in _ (nth row supports []) i 0 0) by lia.
    unfold overlap. rewrite !clamp_clip_by_value.
    rewrite (delta_z_of_nth target_support HN).
    unfold v_min, v_max. rewrite last_as_nth. reflexivity.
Qed.

Lemma project_distribution_entry_witness :
  exists projected,
    project_distribution (matrix ex_supports) (matrix ex_weights)
                         (vector ex_target_support) false
    = Ok projected /\
    forall row j,
      (row < length ex_supports)%nat -> (j < length ex_target_support)%nat ->
      nth j (nth row projected []) 0
      == projected_entry ex_supports ex_weights ex_target_support row j.
Proof.
  apply (project_distribution_entry ex_supports ex_weights ex_target_support false).
  - unfold shapes_agree. simpl. repeat split; try lia; repeat constructor.
  - left. reflexivity.
Defined.

Lemma reduce_sum_scale {A} (f : A -> Q) (w : Q) (l : list A) :
  reduce_sum (map (fun z => f z * w) l) == reduce_sum (map f l) * w.
Proof.
  induction l as [|z l IH]; [unfold reduce_sum; simpl; lra|].
  cbn [map]. rewrite !reduce_sum_cons, IH. lra.
Qed.

Lemma map_snd_combine {A B} (xs : list A) (ys : list B) :
  length xs = length ys -> map snd (combine xs ys) = ys.
Proof.
  revert ys; induction xs as [|x xs IH]; intros [|y ys] H; simpl in *;
    try reflexivity; try discriminate.
  f_equal. apply IH. lia.
Qed.

(** The clipped source point lies on the target support. *)
Lemma clipped_in_range (target_support : list Q) (x : Q) :
  (2 <= length target_support)%nat ->
  valid_target_support target_support ->
  v_min target_support
  <= clip_by_value x (v_min target_support) (v_max target_support)
  <= v_max target_support.
Proof.
  intros HN Hvalid.
  destruct (valid_target_support_arith _ HN Hvalid) as [Hd Harith].
  apply clip_by_value_range. unfold v_max.
  apply (arith_from_last_ge _ _ _ Hd Harith).
  destruct target_support; [simpl in HN; lia | discriminate].
Qed.

(** Each source point spreads exactly its own mass over the target atoms. *)
Lemma overlap_sum_one (target_support : list Q) (x : Q) :
  (2 <= length target_support)%nat ->
  valid_target_support target_support ->
  reduce_sum (map (fun z => overlap target_support (delta_z_of target_support) z x)
                  target_support) == 1.
Proof.
  intros HN Hvalid.
  destruct (valid_target_support_arith _ HN Hvalid) as [Hd Harith].
  apply (tent_sum_one (v_min target_support)); try assumption.
  - destruct target_support; [simpl in HN; lia | discriminate].
  - apply clipped_in_range; assumption.
Qed.

(** C2.  Mass conservation: for valid inputs the entries of every projected
    row add up to the sum of the input weights of that row. *)
Theorem project_distribution_mass_conservation
    supports weights target_support validate_args :
  shapes_agree supports weights target_support ->
  valid_target_support target_support ->
  exists projected,
    project_distribution (matrix supports) (matrix weights)
                         (vector target_support) validate_args
    = Ok projected /\
    forall row, (row < length supports)%nat ->
      reduce_sum (nth row projected []) == reduce_sum (nth row weights []).
Proof.
  intros Hshapes Hvalid. eexists. split.
  - apply project_distribution_returns; [assumption | now right].
  - intros row Hrow.
    pose proof (shapes_agree_rows _ _ _ Hshapes) as Hrows.
    destruct (shapes_agree_row_length _ _ _ row Hshapes Hrow) as [Hs Hw].
    assert (HN : (2 <= length target_support)%nat) by apply Hshapes.
    rewrite projection_eq by exact Hrows.
    rewrite (zip_with_nth _ supports weights row [] [] [])
      by (try exact Hrow; eapply Forall2_length; eassumption).
    set (srow := nth row supports []) in *.
    set (wrow := nth row weights []) in *.
    set (dz := delta_z_of target_support).
    transitivity
      (reduce_sum
         (map (fun z => reduce_sum
                          (map (fun p => overlap target_support dz z (fst p) * snd p)
                               (combine srow wrow)))
              target_support)).
    { apply reduce_sum_map_ext. intros z _.
      rewrite <- (map_id wrow) at 1.
      rewrite zip_with_map, zip_with_as_map. reflexivity. }
    rewrite (reduce_sum_exchange
               (fun z p => overlap target_support dz z (fst p) * snd p)).
    transitivity (reduce_sum (map snd (combine srow wrow))).
    { apply reduce_sum_map_ext. intros p _.
      rewrite (reduce_sum_scale (fun z => overlap target_support dz z (fst p))).
      subst dz. rewrite overlap_sum_one by assumption. lra. }
    rewrite map_snd_combine by congruence. reflexivity.
Qed.

(** The running example of the docstring is a valid input. *)
Lemma ex_shapes_agree : shapes_agree ex_supports ex_weights ex_target_support.
Proof.
  unfold shapes_agree. simpl. repeat split; try lia; repeat constructor.
Qed.

Lemma ex_valid_target_support : valid_target_support ex_target_support.
Proof.
  split.
  - apply monotonic_check. vm_compute. reflexivity.
  - apply spacing_check. vm_compute. reflexivity.
Qed.

Lemma project_distribution_mass_conservation_witness :
  exists projected,
    project_distribution (matrix ex_supports) (matrix ex_weights)
                         (vector ex_target_support) true
    = Ok projected /\
    forall row, (row < length ex_supports)%nat ->
      reduce_sum (nth row projected []) == reduce_sum (nth row ex_weights []).
Proof.
  apply (project_distribution_mass_conservation
           ex_supports ex_weights ex_target_support true).
  - exact ex_shapes_agree.
  - exact ex_valid_target_support.
Defined.

(** C3.  The worked example of the docstring: on
    [supports = [[0,2,4,6,8],[1,3,4,5,6]]],
    [weights = [[0.1,0.6,0.1,0.1,0.1],[0.1,0.2,0.5,0.1,0.1]]] and
    [target_support = [4,5,6,7,8]] the call returns
    [[0.8, 0.0, 0.1, 0.0, 0.1], [0.8, 0.1, 0.1, 0.0, 0.0]], with validation
    on or off. *)
Theorem project_distribution_worked_example :
  forall validate_args, exists projected,
    project_distribution (matrix ex_supports) (matrix ex_weights)
                         (vector ex_target_support) validate_args
    = Ok projected /\
    Forall2 (Forall2 Qeq) projected ex_projection.
Proof.
  intros validate_args. eexists. split.
  - destruct validate_args; vm_compute; reflexivity.
  - repeat constructor; vm_compute; reflexivity.
Qed.

Lemma atoms_in_range (a d : Q) (l : list Q) (i : nat) :
  0 < d -> arith_from a d l -> (i < length l)%nat ->
  a <= nth i l 0 <= last l 0.
Proof.
  intros Hd H Hi.
  rewrite (arith_from_nth a d l i H Hi).
  rewrite (arith_from_last a d l H) by (destruct l; [simpl in Hi; lia | discriminate]).
  assert (H0 : 0 <= inject_Z (Z.of_nat i)).
  { change 0 with (inject_Z 0). rewrite <- Zle_Qle. lia. }
  assert (H1 : inject_Z (Z.of_nat i) <= inject_Z (Z.of_nat (length l - 1))).
  { rewrite <- Zle_Qle. lia. }
  pose proof (Qmult_le_0_compat _ _ H0 (Qlt_le_weak _ _ Hd)).
  pose proof (Qmult_le_compat_r _ _ d H1 (Qlt_le_weak _ _ Hd)).
  lra.
Qed.

Lemma Forall2_Qeq_nth (xs zs : list Q) (i : nat) :
  Forall2 Qeq xs zs -> nth i xs 0 == nth i zs 0.
Proof.
  intros H. revert i. induction H as [|x z xs zs Hxz _ IH]; intros i.
  - destruct i; reflexivity.
  - destruct i as [|i]; [exact Hxz | apply IH].
Qed.

Lemma Forall2_Qeq_of_nth (xs zs : list Q) :
  length xs = length zs ->
  (forall i, (i < length zs)%nat -> nth i xs 0 == nth i zs 0) ->
  Forall2 Qeq xs zs.
Proof.
  revert zs; induction xs as [|x xs IH]; intros [|z zs] Hlen H; simpl in *;
    try discriminate; constructor.
  - apply (H 0%nat). lia.
  - apply IH; [lia|]. intros i Hi. apply (H (S i)). lia.
Qed.

(** C4.  Identity projection: a row of [supports] that equals
    [target_support] elementwise is projected onto its own weights. *)
Theorem project_distribution_identity
    supports weights target_support validate_args row :
  shapes_agree supports weights target_support ->
  valid_target_support target_support ->
  (row < length supports)%nat ->
  Forall2 Qeq (nth row supports []) target_support ->
  exists projected,
    project_distribution (matrix supports) (matrix weights)
                         (vector target_support) validate_args
    = Ok projected /\
    Forall2 Qeq (nth row projected []) (nth row weights []).
Proof.
  intros Hshapes Hvalid Hrow Hsame. eexists. split.
  - apply project_distribution_returns; [assumption | now right].
  - pose proof (shapes_agree_rows _ _ _ Hshapes) as Hrows.
    destruct (shapes_agree_row_length _ _ _ row Hshapes Hrow) as [Hs Hw].
    assert (HN : (2 <= length target_support)%nat) by apply Hshapes.
    destruct (valid_target_support_arith _ HN Hvalid) as [Hd Harith].
    rewrite projection_eq by exact Hrows.
    rewrite (zip_with_nth _ supports weights row [] [] [])
      by (try exact Hrow; eapply Forall2_length; eassumption).
    set (srow := nth row supports []) in *.
    set (wrow := nth row weights []) in *.
    set (dz := delta_z_of target_support) in *.
    assert (Hnth : forall j, (j < length target_support)%nat ->
              reduce_sum (zip_with Qmult
                            (map (overlap target_support dz (nth j target_support 0)) srow)
                            wrow)
              == nth j wrow 0).
    { intros j Hj. apply (reduce_sum_single _ j).
      - rewrite zip_with_length; rewrite length_map; congruence.
      - intros i Hi. rewrite zip_with_length in Hi by (rewrite length_map; congruence).
        rewrite length_map in Hi.
        rewrite (zip_with_nth Qmult _ _ i 0 0 0)
          by (rewrite length_map; congruence).
        rewrite (nth_map_in _ srow i 0 0 Hi).
        pose proof (Forall2_Qeq_nth _ _ i Hsame) as Hx. fold srow in Hx.
        unfold overlap. rewrite Hx.
        rewrite (clip_by_value_inside (nth i target_support 0))
          by (apply (atoms_in_range _ dz); [assumption | assumption | lia]).
        change (clip_by_value (1 - Qabs ?y / dz) 0 1) with (tent dz y).
        rewrite (tent_atoms _ _ _ i j Hd Harith) by lia.
        destruct (Nat.eqb_spec i j) as [->|_]; lra. }
    apply Forall2_Qeq_of_nth.
    + rewrite length_map. congruence.
    + intros j Hj. rewrite Hw in Hj.
      rewrite (nth_map_in _ target_support j 0 0 Hj). apply Hnth, Hj.
Qed.

Lemma project_distribution_identity_witness :
  exists projected,
    project_distribution (matrix [ex_target_support; ex_target_support])
                         (matrix ex_weights)
                         (vector ex_target_support) true
    = Ok projected /\
    Forall2 Qeq (nth 1 projected []) (nth 1 ex_weights []).
Proof.
  apply (project_distribution_identity
           [ex_target_support; ex_target_support] ex_weights ex_target_support
           true 1).
  - unfold shapes_agree. simpl. repeat split; try lia; repeat constructor.
  - exact ex_valid_target_support.
  - simpl. lia.
  - simpl. repeat constructor; reflexivity.
Defined.

Lemma contribution_eq supports weights target_support row j i :
  shapes_agree supports weights target_support ->
  (row < length supports)%nat -> (j < length target_support)%nat ->
  (i < length target_support)%nat ->
  contribution supports weights target_support row j i
  = overlap target_support (delta_z_of target_support) (nth j target_support 0)
            (nth i (nth row supports []) 0)
    * nth i (nth row weights []) 0.
Proof.
  intros Hshapes Hrow Hj Hi.
  pose proof (shapes_agree_rows _ _ _ Hshapes) as Hrows.
  destruct (shapes_agree_row_length _ _ _ row Hshapes Hrow) as [Hs Hw].
  unfold contribution. rewrite inner_prod_eq by exact Hrows. cbn [hd].
  rewrite (zip_with_nth _ supports weights row [] [] [])
    by (try exact Hrow; eapply Forall2_length; eassumption).
  rewrite (nth_map_in _ target_support j 0 [] Hj).
  rewrite (zip_with_nth Qmult _ _ i 0 0 0)
    by (rewrite length_map; congruence).
  rewrite (nth_map_in _ (nth row supports []) i 0 0) by congruence.
  reflexivity.
Qed.

(** Every projected entry is the sum of the contributions to it. *)
Lemma projection_sums_contributions supports weights target_support row j :
  shapes_agree supports weights target_support ->
  (row < length supports)%nat -> (j < length target_support)%nat ->
  nth j (nth row (projection supports weights target_support
                             (delta_z_of target_support)) []) 0
  = sum_over (length target_support)
             (contribution supports weights target_support row j).
Proof.
  intros Hshapes Hrow Hj.
  pose proof (shapes_agree_rows _ _ _ Hshapes) as Hrows.
  destruct (shapes_agree_row_length _ _ _ row Hshapes Hrow) as [Hs Hw].
  rewrite projection_nth by assumption. unfold sum_over.
  rewrite (zip_with_as_seq Qmult _ _ 0 0) by (rewrite length_map; congruence).
  rewrite length_map, Hs. unfold reduce_sum. f_equal.
  apply map_ext_in. intros i Hi. apply in_seq in Hi.
  rewrite contribution_eq by (assumption || lia).
  rewrite (nth_map_in _ (nth row supports []) i 0 0) by lia. reflexivity.
Qed.

(** What the two clipping cases give, for one source point and one atom. *)
Lemma contribution_clipped supports weights target_support row i j :
  shapes_agree supports weights target_support ->
  valid_target_support target_support ->
  (row < length supports)%nat ->
  (i < length target_support)%nat -> (j < length target_support)%nat ->
  let x := nth i (nth row supports []) 0 in
  let w := nth i (nth row weights []) 0 in
  let last_atom := (length target_support - 1)%nat in
  (x <= v_min target_support ->
   contribution supports weights target_support row j i
   == if Nat.eqb j 0 then w else 0) /\
  (v_max target_support <= x ->
   contribution supports weights target_support row j i
   == if Nat.eqb j last_atom then w else 0).
Proof.
  intros Hshapes Hvalid Hrow Hi Hj x w last_atom.
  assert (HN : (2 <= length target_support)%nat) by apply Hshapes.
  destruct (valid_target_support_arith _ HN Hvalid) as [Hd Harith].
  assert (Hne : target_support <> []).
  { destruct target_support; [simpl in HN; lia | discriminate]. }
  pose proof (arith_from_last_ge _ _ _ Hd Harith Hne) as Hle.
  fold (v_max target_support) in Hle.
  split; intros Hx; rewrite contribution_eq by assumption;
    fold x; fold w; unfold overlap.
  - rewrite (clip_by_value_below x) by assumption.
    change (clip_by_value (1 - Qabs ?y / ?d) 0 1) with (tent d y).
    unfold v_min. rewrite (tent_atoms _ _ _ 0 j Hd Harith) by lia.
    rewrite Nat.eqb_sym. destruct (Nat.eqb j 0); lra.
  - rewrite (clip_by_value_above x) by assumption.
    change (clip_by_value (1 - Qabs ?y / ?d) 0 1) with (tent d y).
    unfold v_max. rewrite last_as_nth. fold last_atom.
    rewrite (tent_atoms _ _ _ last_atom j Hd Harith) by (unfold last_atom; lia).
    rewrite Nat.eqb_sym. destruct (Nat.eqb j last_atom); lra.
Qed.

(** C5.  Clipping, for a [target_support] that is monotonically increasing
    and equally spaced: the call returns, entry [j] of row [row] of the
    result is the sum over the source points [i] of the contributions
    [inner_prod[0, row, j, i]], and the contribution of a source point at or
    below [v_min] is its whole weight for atom 0 and nothing for any other
    atom; that of a source point at or above [v_max] is its whole weight for
    the last atom and nothing for any other atom. *)
Theorem project_distribution_clipping
    supports weights target_support validate_args row i j :
  shapes_agree supports weights target_support ->
  valid_target_support target_support ->
  (row < length supports)%nat ->
  (i < length target_support)%nat -> (j < length target_support)%nat ->
  let x := nth i (nth row supports []) 0 in
  let w := nth i (nth row weights []) 0 in
  let last_atom := (length target_support - 1)%nat in
  exists projected,
    project_distribution (matrix supports) (matrix weights)
                         (vector target_support) validate_args
    = Ok projected /\
    nth j (nth row projected []) 0
    = sum_over (length target_support)
               (contribution supports weights target_support row j) /\
    (x <= v_min target_support ->
     contribution supports weights target_support row j i
     == if Nat.eqb j 0 then w else 0) /\
    (v_max target_support <= x ->
     contribution supports weights target_support row j i
     == if Nat.eqb j last_atom then w else 0).
Proof.
  intros Hshapes Hvalid Hrow Hi Hj x w last_atom.
  exists (projection supports weights target_support (delta_z_of target_support)).
  split; [apply project_distribution_returns; [exact Hshapes | now right]|].
  split; [apply projection_sums_contributions; assumption|].
  apply contribution_clipped; assumption.
Qed.

Lemma project_distribution_clipping_witness :
  (exists projected,
     project_distribution (matrix ex_supports) (matrix ex_weights)
                          (vector ex_target_support) true
     = Ok projected /\
     nth 0 (nth 0 projected []) 0
     = sum_over 5 (contribution ex_supports ex_weights ex_target_support 0 0) /\
     contribution ex_supports ex_weights ex_target_support 0 0 1 == 6 # 10) /\
  (exists projected,
     project_distribution (matrix ex_supports) (matrix ex_weights)
                          (vector ex_target_support) true
     = Ok projected /\
     nth 4 (nth 0 projected []) 0
     = sum_over 5 (contribution ex_supports ex_weights ex_target_support 0 4) /\
     contribution ex_supports ex_weights ex_target_support 0 4 4 == 1 # 10).
Proof.
  split.
  - destruct (project_distribution_clipping
                ex_supports ex_weights ex_target_support true 0 1 0
                ex_shapes_agree ex_valid_target_support)
      as (projected & Hcall & Hsum & Hlow & _); [simpl; lia ..|].
    exists projected. split; [exact Hcall | split; [exact Hsum|]].
    apply Hlow. vm_compute. discriminate.
  - destruct (project_distribution_clipping
                ex_supports ex_weights ex_target_support true 0 4 4
                ex_shapes_agree ex_valid_target_support)
      as (projected & Hcall & Hsum & _ & Hhigh); [simpl; lia ..|].
    exists projected. split; [exact Hcall | split; [exact Hsum|]].
    apply Hhigh. vm_compute. discriminate.
Defined.

(** Without equal spacing the second half fails.  On the target support
    [0, 2, 3] with validation off, the only weight of the row sits on a
    source point at 5, above [v_max = 3]; the call returns, and the point
    gives half of its weight to atom 1 besides all of it to the last atom:
    the result is [0, 1/2, 1]. *)
Lemma project_distribution_clipping_counterexample :
  shapes_agree ex_beyond_supports ex_single_weights ex_uneven_target_support /\
  monotonically_increasing ex_uneven_target_support /\
  v_max ex_uneven_target_support <= nth 0 (nth 0 ex_beyond_supports []) 0 /\
  nth 0 (nth 0 ex_single_weights []) 0 == 1 /\
  exists projected,
    project_distribution (matrix ex_beyond_supports) (matrix ex_single_weights)
                         (vector ex_uneven_target_support) false
    = Ok projected /\
    nth 1 (nth 0 projected []) 0
    = sum_over 3 (contribution ex_beyond_supports ex_single_weights
                               ex_uneven_target_support 0 1) /\
    contribution ex_beyond_supports ex_single_weights
                 ex_uneven_target_support 0 1 0 == 1 # 2 /\
    Forall2 Qeq (nth 0 projected []) [0; 1 # 2; 1].
Proof.
  assert (Hshapes : shapes_agree ex_beyond_supports ex_single_weights
                                 ex_uneven_target_support).
  { unfold shapes_agree. simpl. repeat split; try lia; repeat constructor. }
  split; [exact Hshapes|].
  split; [unfold monotonically_increasing; repeat constructor|].
  split; [vm_compute; discriminate|].
  split; [reflexivity|].
  eexists. split; [apply project_distribution_returns; [exact Hshapes | now left]|].
  split; [apply projection_sums_contributions; [exact Hshapes | simpl; lia ..]|].
  split; [reflexivity|].
  repeat constructor.
Qed.

(** C6.  Validation toggling: on a [target_support] whose values are not
    monotonically increasing or not equally spaced, the call raises the
    error of a failed [tf.Assert] when [validate_args] is on, and returns
    when it is off. *)
Theorem project_distribution_validation_toggling supports weights target_support :
  shapes_agree supports weights target_support ->
  ~ valid_target_support target_support ->
  project_distribution (matrix supports) (matrix weights) (vector target_support)
                       true
  = Raise InvalidArgumentError /\
  exists projected,
    project_distribution (matrix supports) (matrix weights) (vector target_support)
                         false
    = Ok projected.
Proof.
  intros Hshapes Hinvalid. split.
  - rewrite project_distribution_shapes_agree by exact Hshapes.
    destruct (reduce_all (map (fun d => greater d 0) (deltas_of target_support)))
      eqn:Hmono; [|reflexivity].
    destruct (reduce_all (map (fun d => equal d (delta_z_of target_support))
                              (deltas_of target_support)))
      eqn:Hspaced; [|reflexivity].
    exfalso. apply Hinvalid. split.
    + apply monotonic_check, Hmono.
    + apply spacing_check, Hspaced.
  - eexists. apply project_distribution_returns; [exact Hshapes | now left].
Qed.

Lemma project_distribution_validation_toggling_witness :
  project_distribution (matrix ex_supports) (matrix ex_weights)
                       (vector ex_malformed_target_support) true
  = Raise InvalidArgumentError /\
  exists projected,
    project_distribution (matrix ex_supports) (matrix ex_weights)
                         (vector ex_malformed_target_support) false
    = Ok projected.
Proof.
  apply (project_distribution_validation_toggling
           ex_supports ex_weights ex_malformed_target_support).
  - unfold shapes_agree. simpl. repeat split; try lia; repeat constructor.
  - intros [_ Hspaced]. apply spacing_check in Hspaced.
    vm_compute in Hspaced. discriminate.
Defined.

Lemma zip_with_Forall_both {A B C} (f : A -> B -> C) (P : C -> Prop)
    (L : A -> Prop) (R : B -> Prop) (xs : list A) (ys : list B) :
  (forall x y, L x -> R y -> P (f x y)) ->
  Forall L xs -> Forall R ys -> Forall P (zip_with f xs ys).
Proof.
  intros H Hxs. revert ys. induction Hxs as [|x xs Hx _ IH];
    intros ys Hys; [constructor|].
  destruct Hys as [|y ys Hy Hys]; simpl; constructor; auto.
Qed.

Lemma overlap_range (target_support : list Q) (delta_z z x : Q) :
  0 <= overlap target_support delta_z z x <= 1.
Proof. unfold overlap. apply clip_by_value_range. lra. Qed.

(** ** The body over [float] *)





Section FloatClosedForm.

Variables supports weights : list (list Q).
Variable target_support : list Q.
Variable delta_z : Q.

Hypothesis delta_z_nonzero : ~ delta_z == 0.



Hypothesis rows_agree :
  Forall2 (fun srow wrow => length srow = length wrow) supports weights.


End FloatClosedForm.







Lemma getitem0_raises (t : Tensor) (e : error) :
  getitem0 t = Raise e -> e = ValueError.
Proof.
  destruct t as [r l]. destruct r as [|r]; simpl.
  - congruence.
  - destruct l; congruence.
Qed.

Lemma adjacent_differences_raises (t : Tensor) (e : error) :
  adjacent_differences t = Raise e -> e = ValueError.
Proof.
  destruct t as [r l]. destruct r as [|r]; simpl; congruence.
Qed.

(** C10.  The three shape assertions run whatever [validate_args] is: when
    [supports] and [weights] have incompatible shapes, or [supports[0]] and
    [target_support] have, or [target_support] is not of rank 1, the call
    raises [ValueError] and returns no result. *)
Theorem project_distribution_shape_assertions
    (supports weights target_support : Tensor) (validate_args : bool) :
  is_compatible_with (shape supports) (shape weights) = false \/
  (exists supports_0,
     getitem0 supports = Ok supports_0 /\
     is_compatible_with (shape supports_0) (shape target_support) = false) \/
  ndims target_support <> 1%nat ->
  project_distribution supports weights target_support validate_args
  = Raise ValueError.
Proof.
  intros Hviolation. unfold project_distribution.
  destruct (adjacent_differences target_support) as [deltas|e] eqn:Hdeltas;
    [| now apply adjacent_differences_raises in Hdeltas; subst ].
  cbn [bind].
  destruct (getitem0 deltas) as [delta_z|e] eqn:Hdelta_z;
    [| now apply getitem0_raises in Hdelta_z; subst ].
  cbn [bind]. unfold assert_is_compatible_with.
  destruct (is_compatible_with (shape supports) (shape weights)) eqn:Hsw;
    [|reflexivity].
  cbn [bind].
  destruct (getitem0 supports) as [supports_0|e] eqn:Hs0;
    [| now apply getitem0_raises in Hs0; subst ].
  cbn [bind].
  destruct (is_compatible_with (shape supports_0) (shape target_support)) eqn:Hst;
    [|reflexivity].
  cbn [bind].
  destruct Hviolation as [H | [(s0 & Hs0' & H) | H]].
  - discriminate.
  - injection Hs0' as <-. congruence.
  - unfold assert_has_rank, shape.
    rewrite length_map, dims_length.
    destruct (Nat.eqb_spec (ndims target_support) 1) as [E|_];
      [contradiction | reflexivity].
Qed.

Lemma project_distribution_shape_assertions_witness :
  project_distribution (matrix ex_supports) (matrix ex_weights)
                       (matrix [ex_target_support; ex_target_support]) false
  = Raise ValueError.
Proof.
  apply (project_distribution_shape_assertions
           (matrix ex_supports) (matrix ex_weights)
           (matrix [ex_target_support; ex_target_support]) false).
  right. right. simpl. lia.
Defined.

(** ** Facts about [argmax] and [traverse] *)

Lemma skipn_cons_nth (full l : list Q) (x : Q) (i : nat) :
  skipn i full = x :: l ->
  nth i full 0 = x /\ skipn (S i) full = l /\ (i < length full)%nat.
Proof.
  revert full; induction i as [|i IH]; intros [|y full] H; simpl in *;
    try discriminate.
  - injection H as -> ->. repeat split. lia.
  - destruct (IH full H) as (H1 & H2 & H3). repeat split; try assumption. lia.
Qed.

Lemma argmax_from_spec (full : list Q) :
  forall (l : list Q) (i best_index : nat) (best : Q),
    skipn i full = l ->
    (best_index < i)%nat -> (i <= length full)%nat ->
    best = nth best_index full 0 ->
    (forall k, (k < i)%nat -> nth k full 0 <= best) ->
    (forall k, (k < best_index)%nat -> nth k full 0 < best) ->
    let a := argmax_from best_index best i l in
    (a < length full)%nat /\
    (forall k, (k < length full)%nat -> nth k full 0 <= nth a full 0) /\
    (forall k, (k < a)%nat -> nth k full 0 < nth a full 0).
Proof.
  induction l as [|x l IH]; intros i best_index best Hskip Hbi Hi Hbest Hle Hlt.
  - simpl.
    assert (length full <= i)%nat.
    { destruct (Nat.le_gt_cases (length full) i) as [H|H]; [exact H|].
      apply (f_equal (@length Q)) in Hskip. rewrite length_skipn in Hskip.
      simpl in Hskip. lia. }
    subst best. repeat split.
    + lia.
    + intros k Hk. apply Hle. lia.
    + exact Hlt.
  - destruct (skipn_cons_nth _ _ _ _ Hskip) as (Hx & Hskip' & Hi').
    cbn [argmax_from]. destruct (Qlt_le_dec best x) as [Hbx|Hxb].
    + apply IH; try assumption; try lia.
      * now symmetry.
      * intros k Hk. destruct (Nat.eq_dec k i) as [->|Hne].
        -- rewrite Hx. lra.
        -- assert (nth k full 0 <= best) by (apply Hle; lia). lra.
      * intros k Hk. assert (nth k full 0 <= best) by (apply Hle; lia). lra.
    + apply IH; try assumption; try lia.
      intros k Hk. destruct (Nat.eq_dec k i) as [->|Hne].
      * rewrite Hx. exact Hxb.
      * apply Hle. lia.
Qed.

(** [argmax] returns the first index of the largest entry. *)
Lemma argmax_spec (l : list Q) :
  l <> [] ->
  exists a,
    argmax l = Ok a /\
    (a < length l)%nat /\
    (forall k, (k < length l)%nat -> nth k l 0 <= nth a l 0) /\
    (forall k, (k < a)%nat -> nth k l 0 < nth a l 0).
Proof.
  intros Hne. destruct l as [|x l]; [congruence|].
  eexists. split; [reflexivity|].
  apply (argmax_from_spec (x :: l) l 1 0 x); simpl; try reflexivity; try lia.
  intros k Hk. assert (k = 0%nat) as -> by lia. lra.
Qed.

Lemma traverse_map_ok {A B C} (f : B -> result C) (g : A -> B) (h : A -> C)
    (l : list A) :
  (forall x, In x l -> f (g x) = Ok (h x)) ->
  traverse f (map g l) = Ok (map h l).
Proof.
  induction l as [|x l IH]; intros H; [reflexivity|].
  cbn [map traverse]. rewrite (H x) by now left. cbn [bind].
  rewrite IH by (intros y Hy; apply H; now right). reflexivity.
Qed.

Lemma argmax_total_ok (l : list Q) : l <> [] -> argmax l = Ok (argmax_total l).
Proof. destruct l; [congruence | reflexivity]. Qed.

Lemma expected_value_eq (support row : list Q) :
  length row = length support ->
  reduce_sum (zip_with Qmult support row) = expected_value support row.
Proof.
  intros H. unfold expected_value, sum_over.
  now rewrite (zip_with_as_seq Qmult support row 0 0) by congruence.
Qed.

Lemma greedy_rows (support : list Q) (probs : ndarray 3) :
  Forall (fun actions =>
            actions <> [] /\
            Forall (fun row => length row = length support) actions) probs ->
  let q_values := map (map reduce_sum) (binary_op Qmult 3 [[support]] probs) in
  exists next_q,
    (next_qt_argmax <- traverse argmax q_values ;;
     gather_nd probs
       (concat_last (map (fun b => [b]) (seq 0 (length q_values)))
                    (map (fun a => [a]) next_qt_argmax)))
    = Ok next_q /\
    length next_q = length probs /\
    forall b, (b < length probs)%nat ->
      exists a, greedy_action support (nth b probs []) a /\
                nth b next_q [] = nth a (nth b probs []) [].
Proof.
  intros Hprobs q_values.
  set (E := fun row : list Q => reduce_sum (zip_with Qmult support row)).
  set (h := fun actions : list (list Q) => argmax_total (map E actions)).
  assert (Hqv : q_values = map (map E) probs).
  { subst q_values. cbn [binary_op broadcast]. rewrite map_map.
    apply map_ext_in. intros actions Hin.
    rewrite Forall_forall in Hprobs. destruct (Hprobs _ Hin) as [_ Hrows].
    change (broadcast (broadcast Qmult) [support] actions)
      with (map (broadcast Qmult support) actions).
    rewrite map_map. apply map_ext_in. intros row Hrow.
    rewrite Forall_forall in Hrows. subst E. cbv beta. f_equal.
    apply broadcast_same_length. symmetry. apply Hrows, Hrow. }
  rewrite Hqv.
  rewrite (traverse_map_ok argmax (map E) h).
  2:{ intros actions Hin. apply argmax_total_ok.
      rewrite Forall_forall in Hprobs. destruct (Hprobs _ Hin) as [Hne _].
      destruct actions; [congruence | discriminate]. }
  cbn [bind]. rewrite length_map.
  assert (Hidx : concat_last (map (fun b => [b]) (seq 0 (length probs)))
                             (map (fun a => [a]) (map h probs))
                 = map (fun b => [b; h (nth b probs [])]) (seq 0 (length probs))).
  { unfold concat_last. rewrite map_map, zip_with_map.
    rewrite (zip_with_as_seq _ (seq 0 (length probs)) probs 0%nat [])
      by apply length_seq.
    rewrite length_seq. apply map_ext_in. intros b Hb. apply in_seq in Hb.
    rewrite seq_nth by lia. reflexivity. }
  rewrite Hidx. unfold gather_nd.
  rewrite (traverse_map_ok _ _ (fun b => nth (h (nth b probs [])) (nth b probs []) [])).
  2:{ intros b Hb. apply in_seq in Hb.
      rewrite (nth_error_nth' probs []) by lia.
      rewrite Forall_forall in Hprobs.
      destruct (Hprobs (nth b probs [])) as [Hne _]; [apply nth_In; lia|].
      destruct (argmax_spec (map E (nth b probs []))) as (a & Ha & Hlt & _).
      { destruct (nth b probs []); [congruence | discriminate]. }
      rewrite argmax_total_ok in Ha
        by (destruct (nth b probs []); [congruence | discriminate]).
      injection Ha as Ha. subst h. cbv beta. rewrite Ha.
      rewrite length_map in Hlt.
      now rewrite (nth_error_nth' (nth b probs []) []) by exact Hlt. }
  eexists. split; [reflexivity|]. split; [now rewrite length_map, length_seq|].
  intros b Hb.
  rewrite (nth_map_in _ (seq 0 (length probs)) b 0%nat [])
    by now rewrite length_seq.
  rewrite seq_nth by exact Hb. cbn [Nat.add].
  exists (h (nth b probs [])). split; [|reflexivity].
  rewrite Forall_forall in Hprobs.
  destruct (Hprobs (nth b probs [])) as [Hne Hrows]; [apply nth_In; lia|].
  rewrite Forall_forall in Hrows.
  assert (Hentry : forall a, (a < length (nth b probs []))%nat ->
            nth a (map E (nth b probs [])) 0
            = expected_value support (nth a (nth b probs []) [])).
  { intros a Ha. rewrite (nth_map_in E _ a [] 0 Ha). subst E. cbv beta.
    apply expected_value_eq, Hrows, nth_In, Ha. }
  destruct (argmax_spec (map E (nth b probs []))) as (a & Ha & Hlt & Hmax & Hfirst).
  { destruct (nth b probs []); [congruence | discriminate]. }
  rewrite argmax_total_ok in Ha
    by (destruct (nth b probs []); [congruence | discriminate]).
  injection Ha as Ha. subst h. cbv beta. rewrite Ha.
  rewrite length_map in Hlt, Hmax. split.
  - exact Hlt.
  - intros a' Ha'. rewrite <- !Hentry by assumption. apply Hmax, Ha'.
Qed.

Lemma linspace_length (start stop : Q) (num : nat) :
  length (linspace start stop num) = num.
Proof.
  unfold linspace. destruct num as [|[|n]]; try reflexivity.
  now rewrite length_map, length_seq.
Qed.

Section NextQDistributionFacts.

Variables Observation StepType NetworkState BatchSquash : Type.
Variable target_q_network : Observation -> StepType -> Tensor * NetworkState.
Variable softmax : list Q -> list Q.
Variable flatten : BatchSquash -> Tensor -> Tensor.
Hypothesis softmax_length : forall row, length (softmax row) = length row.

(** C8.  Next-state greedy selection: for every batch element the value
    returned by [_next_q_distribution] is the softmax probability row, of
    length [num_atoms], of the action whose expected value
    [sum_k support[k] * softmax(target logits)[action, k]] is largest
    among the target network's own probability rows; one row per batch
    element. *)
Theorem next_q_distribution_greedy
    (self : CategoricalDqnAgent) (next_time_steps : TimeStep Observation StepType)
    (batch_squash : option BatchSquash) (logits : ndarray 3) :
  (let network_output :=
     fst (target_q_network (observation _ _ next_time_steps)
                           (step_type _ _ next_time_steps)) in
   match batch_squash with
   | Some squash => flatten squash network_output
   | None => network_output
   end) = mkTensor 3 logits ->
  Forall (fun actions =>
            actions <> [] /\
            Forall (fun row => length row = _num_atoms self) actions) logits ->
  exists next_q,
    _next_q_distribution _ _ _ _ target_q_network softmax flatten self
                         next_time_steps batch_squash
    = Ok next_q /\
    length next_q = length logits /\
    forall b, (b < length logits)%nat ->
      let probabilities := map softmax (nth b logits []) in
      exists a,
        greedy_action (_support self) probabilities a /\
        nth b next_q [] = nth a probabilities [] /\
        length (nth b next_q []) = _num_atoms self.
Proof.
  intros Hread Hlogits.
  assert (Hprobs : Forall (fun actions =>
                     actions <> [] /\
                     Forall (fun row => length row = length (_support self))
                            actions)
                   (map (map softmax) logits)).
  { apply Forall_forall. intros probabilities Hin.
    apply in_map_iff in Hin. destruct Hin as (actions & <- & Hin).
    rewrite Forall_forall in Hlogits. destruct (Hlogits _ Hin) as [Hne Hrows].
    split.
    - destruct actions; [congruence | discriminate].
    - apply Forall_forall. intros row Hrow.
      apply in_map_iff in Hrow. destruct Hrow as (logit_row & <- & Hrow).
      rewrite Forall_forall in Hrows.
      rewrite softmax_length. unfold _support. rewrite linspace_length.
      apply Hrows, Hrow. }
  destruct (greedy_rows (_support self) (map (map softmax) logits) Hprobs)
    as (next_q & Hcall & Hlen & Hgreedy).
  exists next_q. split; [|split].
  - unfold _next_q_distribution.
    destruct (target_q_network (observation _ _ next_time_steps)
                               (step_type _ _ next_time_steps)) as [t state].
    cbn [fst] in Hread. cbv zeta in Hread. rewrite Hread.
    cbn [bind as_rank3]. exact Hcall.
  - now rewrite Hlen, length_map.
  - intros b Hb probabilities.
    destruct (Hgreedy b) as (a & Ha & Hrow); [now rewrite length_map|].
    assert (Hnth : nth b (map (map softmax) logits) [] = probabilities).
    { subst probabilities. apply (nth_map_in (map softmax) logits b [] [] Hb). }
    rewrite Hnth in Ha, Hrow.
    exists a. repeat split; try apply Ha; [exact Hrow|].
    rewrite Hrow. destruct Ha as (Ha & _).
    rewrite Forall_forall in Hprobs.
    destruct (Hprobs probabilities) as [_ Hrows].
    { rewrite <- Hnth. apply nth_In. now rewrite length_map. }
    rewrite Forall_forall in Hrows.
    rewrite (Hrows (nth a probabilities [])) by (apply nth_In, Ha).
    unfold _support. apply linspace_length.
Qed.

End NextQDistributionFacts.

Lemma next_q_distribution_greedy_witness :
  let network := fun (_ _ : unit) => (mkTensor 3 [[[1; 3]; [3; 1]]], tt) in
  let normalize := fun row : list Q => map (fun x => x / reduce_sum row) row in
  let agent := {| _num_atoms := 2; _min_q_value := 0; _max_q_value := 1;
                  _n_step_update := 1; _gamma := 1; _reward_scale_factor := 1 |} in
  let steps := {| step_type := tt; reward := [0]; discount := [1];
                  observation := tt |} in
  exists next_q,
    _next_q_distribution unit unit unit unit network normalize (fun _ t => t)
                         agent steps None
    = Ok next_q /\
    length next_q = 1%nat /\
    forall b, (b < 1)%nat ->
      let probabilities := map normalize (nth b [[[1; 3]; [3; 1]]] []) in
      exists a,
        greedy_action (_support agent) probabilities a /\
        nth b next_q [] = nth a probabilities [] /\
        length (nth b next_q []) = 2%nat.
Proof.
  intros network normalize agent steps.
  apply (next_q_distribution_greedy unit unit unit unit network normalize
           (fun _ t => t) (fun row => length_map _ row) agent steps None
           [[[1; 3]; [3; 1]]]).
  - reflexivity.
  - repeat constructor. discriminate.
Defined.

(** ** One step against n steps with n = 1 *)

Lemma zip_with_Forall2 {A B C} (f g : A -> B -> C) (P : C -> C -> Prop)
    (L : A -> Prop) (R : B -> Prop) (xs : list A) (ys : list B) :
  (forall x y, L x -> R y -> P (f x y) (g x y)) ->
  Forall L xs -> Forall R ys ->
  Forall2 P (zip_with f xs ys) (zip_with g xs ys).
Proof.
  intros H Hxs. revert ys. induction Hxs as [|x xs Hx _ IH];
    intros ys Hys; [constructor|].
  destruct Hys as [|y ys Hy Hys]; simpl; constructor; auto.
Qed.

Lemma Forall2_map_Qeq {A} (f g : A -> Q) (l : list A) :
  (forall x, f x == g x) -> Forall2 Qeq (map f l) (map g l).
Proof.
  intros H. induction l as [|x l IH]; simpl; constructor; auto.
Qed.

Lemma squeeze_window (rows : list (list Q)) :
  Forall (fun row => length row = 2%nat) rows ->
  squeeze (map (@removelast Q) rows) = Ok (map (hd 0) rows).
Proof.
  intros H. unfold squeeze. apply traverse_map_ok. intros row Hin.
  rewrite Forall_forall in H. specialize (H row Hin).
  destruct row as [|r0 [|r1 [|r2 row]]]; simpl in H; try discriminate.
  reflexivity.
Qed.

Section TargetSupportFacts.

Variable self : CategoricalDqnAgent.
Variable batch_size : nat.
Variables gamma reward_scale_factor : Q.

Lemma loss_tiled_support_eq :
  loss_tiled_support self batch_size = repeat (_support self) batch_size.
Proof.
  unfold loss_tiled_support, reshape. cbn [tile]. rewrite map_id.
  rewrite flatten_vector. unfold tile_axis.
  apply unflatten_matrix; [now rewrite repeat_length|].
  apply Forall_forall. intros row Hrow.
  apply repeat_spec in Hrow; subst. unfold _support. apply linspace_length.
Qed.

Lemma one_step_target_support_eq (rewards discounts : list Q) :
  length rewards = batch_size -> length discounts = batch_size ->
  one_step_target_support self batch_size gamma reward_scale_factor
                          (rewards, discounts)
  = zip_with
      (fun r d => map (fun s => reward_scale_factor * r + gamma * (d * s))
                      (_support self))
      rewards discounts.
Proof.
  intros Hr Hd. unfold one_step_target_support. cbn [fst snd].
  rewrite loss_tiled_support_eq. cbn [binary_op unary_op].
  rewrite (broadcast_same_length (broadcast Qmult))
    by now rewrite length_map, repeat_length.
  rewrite zip_with_repeat_n by (rewrite length_map; exact Hd).
  rewrite !map_map.
  rewrite broadcast_same_length by (rewrite !length_map; congruence).
  rewrite zip_with_map. apply zip_with_ext_in.
  assert (Hlen : length rewards = length discounts) by congruence.
  clear Hr Hd. revert discounts Hlen.
  induction rewards as [|r rs IH]; intros [|d ds] Hlen; simpl in Hlen;
    try discriminate; constructor.
  - cbn [map broadcast]. rewrite !map_map. reflexivity.
  - apply IH. lia.
Qed.

Lemma n_step_target_support_eq (experience : trajectory.Trajectory) :
  length (trajectory.reward experience) = batch_size ->
  length (trajectory.discount experience) = batch_size ->
  n_step_target_support self batch_size gamma reward_scale_factor experience
  = zip_with
      (fun rewards discounts =>
         map (fun s =>
                value_ops.discounted_return_row
                  (map (Qmult reward_scale_factor) (removelast rewards))
                  (map (Qmult gamma) (removelast discounts)) 0
                + reduce_prod (map (Qmult gamma) (removelast discounts)) * s)
             (_support self))
      (trajectory.reward experience) (trajectory.discount experience).
Proof.
  intros Hr Hd. unfold n_step_target_support, value_ops.discounted_return.
  rewrite loss_tiled_support_eq. cbn [binary_op unary_op].
  set (R := trajectory.reward experience) in *.
  set (D := trajectory.discount experience) in *.
  assert (Hlen : length R = length D) by congruence.
  assert (Hc : length (combine (map (map (Qmult reward_scale_factor))
                                    (map (@removelast Q) R))
                               (map (map (Qmult gamma)) (map (@removelast Q) D)))
               = batch_size).
  { rewrite length_combine, !length_map. lia. }
  rewrite (zip_with_repeat_n _ _ 0 batch_size Hc).
  rewrite (broadcast_same_length (broadcast Qmult))
    by (rewrite !length_map, repeat_length; congruence).
  rewrite zip_with_repeat_n by (rewrite !length_map; exact Hd).
  rewrite broadcast_same_length
    by (rewrite !length_map, length_combine, !length_map; lia).
  rewrite !map_map.
  clearbody R D. clear Hr Hd Hc. revert D Hlen.
  induction R as [|r R IH]; intros [|d D] Hlen; simpl in Hlen;
    try discriminate; [reflexivity|].
  cbn [map combine zip_with fst snd]. f_equal.
  - cbn [broadcast]. rewrite map_map. reflexivity.
  - apply IH. lia.
Qed.

End TargetSupportFacts.

(** C7.  With [n_step = 1], that is on trajectories of two time steps, the
    target support built by the n-step machinery (the discounted return
    plus the product of the discounts times the tiled support) equals,
    entry by entry, the one the dedicated 1-step branch of [_loss] builds
    ([reward_scale_factor * reward + gamma * discount * support]). *)
Theorem n_step_one_matches_one_step
    (self : CategoricalDqnAgent) (batch_size : nat) (gamma reward_scale_factor : Q)
    (experience : trajectory.Trajectory) :
  _n_step_update self = 1%nat ->
  length (trajectory.reward experience) = batch_size ->
  length (trajectory.discount experience) = batch_size ->
  Forall (fun row => length row = S (_n_step_update self))
         (trajectory.reward experience) ->
  Forall (fun row => length row = S (_n_step_update self))
         (trajectory.discount experience) ->
  exists one_step,
    loss_target_support self batch_size gamma reward_scale_factor experience
    = Ok one_step /\
    Forall2 (Forall2 Qeq)
      (n_step_target_support self batch_size gamma reward_scale_factor experience)
      one_step.
Proof.
  intros Hn Hr Hd HR HD. rewrite Hn in HR, HD.
  unfold loss_target_support, _experience_to_transitions. rewrite Hn.
  cbn [Nat.eqb]. rewrite !squeeze_window by assumption. cbn [bind].
  eexists. split; [reflexivity|].
  rewrite one_step_target_support_eq by (rewrite length_map; assumption).
  rewrite n_step_target_support_eq by assumption.
  rewrite zip_with_map.
  apply (zip_with_Forall2 _ _ _ (fun row => length row = 2%nat)
                          (fun row => length row = 2%nat));
    [| exact HR | exact HD].
  intros rewards discounts Hrewards Hdiscounts.
  destruct rewards as [|r0 [|r1 [|r2 rewards]]]; simpl in Hrewards;
    try discriminate.
  destruct discounts as [|d0 [|d1 [|d2 discounts]]]; simpl in Hdiscounts;
    try discriminate.
  apply Forall2_map_Qeq. intros s.
  unfold value_ops.discounted_return_row, reduce_prod. simpl. ring.
Qed.

Lemma n_step_one_matches_one_step_witness :
  let agent := {| _num_atoms := 3; _min_q_value := 0; _max_q_value := 2;
                  _n_step_update := 1; _gamma := 9 # 10;
                  _reward_scale_factor := 1 |} in
  let experience := {| trajectory.reward := [[1; 0]; [2; 0]];
                       trajectory.discount := [[1; 1]; [0; 1]] |} in
  exists one_step,
    loss_target_support agent 2 (9 # 10) 1 experience = Ok one_step /\
    Forall2 (Forall2 Qeq)
      (n_step_target_support agent 2 (9 # 10) 1 experience) one_step.
Proof.
  intros agent experience.
  apply (n_step_one_matches_one_step agent 2 (9 # 10) 1 experience);
    try reflexivity; repeat constructor.
Defined.

(** * Further properties *)

(** ** [project_distribution]: what it returns and when it raises *)

(** With agreeing shapes, whatever the call returns is the projection body. *)
Lemma project_distribution_value supports weights target_support validate_args projected :
  shapes_agree supports weights target_support ->
  project_distribution (matrix supports) (matrix weights) (vector target_support)
                       validate_args
  = Ok projected ->
  projected = projection supports weights target_support (delta_z_of target_support).
Proof.
  intros Hshapes Hcall.
  rewrite project_distribution_shapes_agree in Hcall by exact Hshapes.
  destruct validate_args; [|congruence].
  repeat match type of Hcall with
         | context [Assert ?c] => destruct c; cbn [Assert bind] in Hcall
         end; congruence.
Qed.

(** X2.  [delta_z] is read off the first difference of [target_support]: a
    [target_support] with fewer than two atoms has none, and the call raises
    whatever [supports], [weights] and [validate_args] are. *)
Theorem project_distribution_too_few_atoms
    (supports weights : Tensor) (target_support : list Q) (validate_args : bool) :
  (length target_support < 2)%nat ->
  project_distribution supports weights (vector target_support) validate_args
  = Raise ValueError.
Proof.
  intros H. destruct target_support as [|z0 [|z1 zs]]; simpl in H; try lia;
    reflexivity.
Qed.

Lemma project_distribution_too_few_atoms_witness :
  project_distribution (matrix ex_supports) (matrix ex_weights) (vector [4]) false
  = Raise ValueError.
Proof.
  apply (project_distribution_too_few_atoms
           (matrix ex_supports) (matrix ex_weights) [4] false).
  simpl. lia.
Defined.

(** X3.  An empty batch raises: [supports[0]] does not exist, whatever
    [weights], [target_support] and [validate_args] are. *)
Theorem project_distribution_empty_batch
    (r : nat) (weights target_support : Tensor) (validate_args : bool) :
  project_distribution (mkTensor (S r) []) weights target_support validate_args
  = Raise ValueError.
Proof.
  unfold project_distribution.
  destruct (adjacent_differences target_support) as [deltas|e] eqn:Hdeltas;
    [| now apply adjacent_differences_raises in Hdeltas; subst ].
  cbn [bind].
  destruct (getitem0 deltas) as [delta_z|e] eqn:Hdelta_z;
    [| now apply getitem0_raises in Hdelta_z; subst ].
  cbn [bind]. unfold assert_is_compatible_with.
  destruct (is_compatible_with (shape (mkTensor (S r) [])) (shape weights));
    reflexivity.
Qed.

(** X4.  Validation only ever adds a failed [tf.Assert]: it never changes
    the value returned, and an error raised with validation off is raised
    with it on as well. *)
Theorem project_distribution_validation_transparent
    (supports weights target_support : Tensor) :
  (forall projected,
     project_distribution supports weights target_support true = Ok projected ->
     project_distribution supports weights target_support false = Ok projected) /\
  (forall projected,
     project_distribution supports weights target_support false = Ok projected ->
     project_distribution supports weights target_support true = Ok projected \/
     project_distribution supports weights target_support true
     = Raise InvalidArgumentError) /\
  (forall e,
     project_distribution supports weights target_support false = Raise e ->
     project_distribution supports weights target_support true = Raise e).
Proof.
  unfold project_distribution.
  destruct (adjacent_differences target_support) as [deltas|e0];
    cbn [bind]; [| repeat split; intros; try discriminate; assumption ].
  destruct (getitem0 deltas) as [delta_z|e0];
    cbn [bind]; [| repeat split; intros; try discriminate; assumption ].
  destruct (assert_is_compatible_with (shape supports) (shape weights)) as [u|e0];
    cbn [bind]; [| repeat split; intros; try discriminate; assumption ].
  destruct (getitem0 supports) as [supports_0|e0];
    cbn [bind]; [| repeat split; intros; try discriminate; assumption ].
  destruct (assert_is_compatible_with (shape supports_0) (shape target_support))
    as [u0|e0];
    cbn [bind]; [| repeat split; intros; try discriminate; assumption ].
  destruct (assert_has_rank (shape target_support) 1) as [u1|e0];
    cbn [bind]; [| repeat split; intros; try discriminate; assumption ].
  destruct (as_matrix supports) as [supports_m|e0];
    cbn [bind]; [| repeat split; intros; try discriminate; assumption ].
  destruct (as_matrix weights) as [weights_m|e0];
    cbn [bind]; [| repeat split; intros; try discriminate; assumption ].
  destruct (as_vector target_support) as [target_support_v|e0];
    cbn [bind]; [| repeat split; intros; try discriminate; assumption ].
  destruct (as_vector deltas) as [deltas_v|e0];
    cbn [bind]; [| repeat split; intros; try discriminate; assumption ].
  destruct (as_scalar delta_z) as [delta_z_s|e0];
    cbn [bind]; [| repeat split; intros; try discriminate; assumption ].
  assert (Hdeps : validate_deps supports weights target_support deltas_v delta_z_s
                  = Ok tt \/
                  validate_deps supports weights target_support deltas_v delta_z_s
                  = Raise InvalidArgumentError).
  { unfold validate_deps.
    repeat match goal with
           | |- context [Assert ?c] => destruct c; cbn [Assert bind]
           end; auto. }
  destruct Hdeps as [-> | ->]; cbn [bind]; repeat split; intros;
    try discriminate; auto.
Qed.

(** ** [project_distribution]: rows, bounds and linearity *)

(** X5.  Batch elements do not interact: row [row] of the result is what the
    call returns on that row of [supports] and [weights] alone. *)
Theorem project_distribution_row_by_row
    supports weights target_support validate_args projected row :
  shapes_agree supports weights target_support ->
  (row < length supports)%nat ->
  project_distribution (matrix supports) (matrix weights) (vector target_support)
                       validate_args
  = Ok projected ->
  project_distribution (matrix [nth row supports []]) (matrix [nth row weights []])
                       (vector target_support) validate_args
  = Ok [nth row projected []].
Proof.
  intros Hshapes Hrow Hcall.
  pose proof (shapes_agree_rows _ _ _ Hshapes) as Hrows.
  destruct (shapes_agree_row_length _ _ _ row Hshapes Hrow) as [Hs Hw].
  assert (Hone : shapes_agree [nth row supports []] [nth row weights []]
                              target_support).
  { unfold shapes_agree. simpl. repeat split; try lia.
    - constructor; [exact Hs | constructor].
    - constructor; [exact Hw | constructor].
    - apply Hshapes. }
  assert (Hvalue : projection [nth row supports []] [nth row weights []]
                              target_support (delta_z_of target_support)
                   = [nth row projected []]).
  { rewrite (project_distribution_value _ _ _ _ _ Hshapes Hcall).
    rewrite (projection_eq supports weights) by exact Hrows.
    rewrite projection_eq by (constructor; [congruence | constructor]).
    cbn [zip_with]. f_equal.
    rewrite (zip_with_nth _ supports weights row [] [] [])
      by (try exact Hrow; eapply Forall2_length; eassumption).
    reflexivity. }
  rewrite project_distribution_shapes_agree in Hcall |- * by assumption.
  rewrite Hvalue. destruct validate_args; [|reflexivity].
  repeat match type of Hcall with
         | context [Assert ?c] => destruct c; cbn [Assert bind] in Hcall |- *
         end; try discriminate; reflexivity.
Qed.

Lemma project_distribution_row_by_row_witness :
  project_distribution (matrix [nth 1 ex_supports []]) (matrix [nth 1 ex_weights []])
                       (vector ex_target_support) true
  = Ok [nth 1 (projection ex_supports ex_weights ex_target_support
                          (delta_z_of ex_target_support)) []].
Proof.
  apply (project_distribution_row_by_row ex_supports ex_weights ex_target_support
                                         true _ 1).
  - unfold shapes_agree. simpl. repeat split; try lia; repeat constructor.
  - simpl. lia.
  - reflexivity.
Defined.

Lemma reduce_sum_zip_le (overlaps ws : list Q) :
  Forall (fun o => 0 <= o <= 1) overlaps ->
  Forall (fun w => 0 <= w) ws ->
  reduce_sum (zip_with Qmult overlaps ws) <= reduce_sum ws.
Proof.
  intros Ho. revert ws. induction Ho as [|o os Hrange _ IH]; intros ws Hws.
  - cbn [zip_with]. apply reduce_sum_nonneg, Hws.
  - destruct Hws as [|w ws Hw Hws]; cbn [zip_with]; [apply Qle_refl|].
    rewrite !reduce_sum_cons. specialize (IH ws Hws).
    assert (0 <= (1 - o) * w) by (apply Qmult_le_0_compat; lra).
    lra.
Qed.

(** X6.  No atom receives more than there is: for a [target_support] whose
    first two atoms differ ([delta_z] is not zero, so that the quotient is
    not a division by zero) and non-negative weights, every entry of a
    projected row is at most the sum of the weights of that row, whatever
    the other values in [supports] and [target_support]. *)
Theorem project_distribution_entry_bound
    supports weights target_support validate_args projected row j :
  shapes_agree supports weights target_support ->
  Forall (Forall (fun w => 0 <= w)) weights ->
  ~ delta_z_of target_support == 0 ->
  project_distribution (matrix supports) (matrix weights) (vector target_support)
                       validate_args
  = Ok projected ->
  (row < length supports)%nat -> (j < length target_support)%nat ->
  nth j (nth row projected []) 0 <= reduce_sum (nth row weights []).
Proof.
  intros Hshapes Hweights _ Hcall Hrow Hj.
  pose proof (shapes_agree_rows _ _ _ Hshapes) as Hrows.
  rewrite (project_distribution_value _ _ _ _ _ Hshapes Hcall).
  rewrite projection_nth by assumption.
  apply reduce_sum_zip_le.
  - apply Forall_forall. intros o Ho.
    apply in_map_iff in Ho. destruct Ho as (x & <- & _). apply overlap_range.
  - rewrite Forall_forall in Hweights. apply Hweights, nth_In.
    destruct Hshapes as (_ & HW & _). lia.
Qed.

Lemma project_distribution_entry_bound_witness :
  nth 0 (nth 1 (projection ex_supports ex_weights ex_malformed_target_support
                           (delta_z_of ex_malformed_target_support)) []) 0
  <= reduce_sum (nth 1 ex_weights []).
Proof.
  apply (project_distribution_entry_bound
           ex_supports ex_weights ex_malformed_target_support false _ 1 0).
  - unfold shapes_agree. simpl. repeat split; try lia; repeat constructor.
  - repeat constructor; vm_compute; discriminate.
  - vm_compute. discriminate.
  - reflexivity.
  - simpl. lia.
  - simpl. lia.
Defined.

Lemma reduce_sum_zip_linear (a b : Q) (overlaps ws ws' : list Q) :
  length overlaps = length ws -> length ws = length ws' ->
  reduce_sum (zip_with Qmult overlaps
                (zip_with Qplus (map (Qmult a) ws) (map (Qmult b) ws')))
  == a * reduce_sum (zip_with Qmult overlaps ws)
     + b * reduce_sum (zip_with Qmult overlaps ws').
Proof.
  revert ws ws'. induction overlaps as [|o os IH]; intros [|w ws] [|w' ws'] H H';
    simpl in H, H'; try discriminate.
  - unfold reduce_sum. simpl. lra.
  - cbn [map zip_with]. rewrite !reduce_sum_cons, IH by lia. ring.
Qed.

(** [a * weights + b * weights'], as the tensor operations compute it. *)
Lemma linear_combination_eq (a b : Q) (weights weights' : list (list Q)) :
  Forall2 (fun wrow wrow' => length wrow = length wrow') weights weights' ->
  binary_op Qplus 2 (unary_op (Qmult a) 2 weights) (unary_op (Qmult b) 2 weights')
  = zip_with (fun wrow wrow' =>
                zip_with Qplus (map (Qmult a) wrow) (map (Qmult b) wrow'))
             weights weights'.
Proof.
  intros H. cbn [binary_op unary_op].
  rewrite broadcast_same_length
    by (rewrite !length_map; eapply Forall2_length; eassumption).
  rewrite zip_with_map. apply zip_with_ext_in.
  eapply Forall2_impl; [|exact H]. cbv beta. intros wrow wrow' Hlen.
  apply broadcast_same_length. now rewrite !length_map.
Qed.

(** X7.  The projection is linear in the weights: projecting
    [a * weights + b * weights'] gives [a] times the projection of [weights]
    plus [b] times the projection of [weights'], entry by entry. *)
Theorem project_distribution_linear
    supports weights weights' target_support validate_args (a b : Q) :
  shapes_agree supports weights target_support ->
  shapes_agree supports weights' target_support ->
  validate_args = false \/ valid_target_support target_support ->
  exists projected projected' combined,
    project_distribution (matrix supports) (matrix weights)
                         (vector target_support) validate_args
    = Ok projected /\
    project_distribution (matrix supports) (matrix weights')
                         (vector target_support) validate_args
    = Ok projected' /\
    project_distribution
      (matrix supports)
      (matrix (binary_op Qplus 2 (unary_op (Qmult a) 2 weights)
                                 (unary_op (Qmult b) 2 weights')))
      (vector target_support) validate_args
    = Ok combined /\
    forall row j,
      (row < length supports)%nat -> (j < length target_support)%nat ->
      nth j (nth row combined []) 0
      == a * nth j (nth row projected []) 0 + b * nth j (nth row projected' []) 0.
Proof.
  intros Hshapes Hshapes' Hvalid.
  pose proof (shapes_agree_rows _ _ _ Hshapes) as Hrows.
  pose proof (shapes_agree_rows _ _ _ Hshapes') as Hrows'.
  assert (Hww : Forall2 (fun wrow wrow' => length wrow = length wrow')
                        weights weights').
  { destruct Hshapes as (_ & HW & _ & Hw & _).
    destruct Hshapes' as (_ & HW' & _ & Hw' & _).
    assert (Hlen : length weights = length weights') by congruence.
    clear - Hw Hw' Hlen. revert weights' Hw' Hlen.
    induction Hw as [|wrow ws Hrow _ IH]; intros [|wrow' ws'] Hw' Hlen;
      simpl in Hlen; try discriminate; constructor.
    - inversion Hw'; subst. congruence.
    - apply IH; [now inversion Hw' | lia]. }
  rewrite linear_combination_eq by exact Hww.
  set (mixed := zip_with _ weights weights').
  assert (Hmixed_nth : forall row, (row < length supports)%nat ->
            nth row mixed []
            = zip_with Qplus (map (Qmult a) (nth row weights []))
                             (map (Qmult b) (nth row weights' []))).
  { intros row Hrow. subst mixed.
    rewrite (zip_with_nth _ weights weights' row [] [] []);
      [reflexivity | eapply Forall2_length; eassumption |].
    destruct Hshapes as (_ & HW & _). lia. }
  assert (Hmixed : shapes_agree supports mixed target_support).
  { destruct Hshapes as (HB & HW & Hs & Hw & HN).
    assert (Hlen : length mixed = length supports).
    { subst mixed. rewrite zip_with_length; [exact HW|].
      eapply Forall2_length; eassumption. }
    unfold shapes_agree. repeat split; try assumption.
    apply Forall_forall. intros wrow Hin.
    destruct (In_nth _ _ [] Hin) as (row & Hrow & <-).
    rewrite Hmixed_nth by lia.
    destruct (shapes_agree_row_length _ _ _ row Hshapes') as [_ Hw'']; [lia|].
    rewrite zip_with_length by (rewrite !length_map;
      rewrite Forall_forall in Hw; rewrite (Hw (nth row weights []));
      [now rewrite Hw'' | apply nth_In; lia]).
    rewrite length_map. rewrite Forall_forall in Hw. apply Hw, nth_In. lia. }
  eexists. eexists. eexists.
  split; [apply project_distribution_returns; assumption|].
  split; [apply project_distribution_returns; assumption|].
  split; [apply project_distribution_returns; assumption|].
  intros row j Hrow Hj.
  destruct (shapes_agree_row_length _ _ _ row Hshapes Hrow) as [Hs Hw].
  destruct (shapes_agree_row_length _ _ _ row Hshapes' Hrow) as [_ Hw'].
  rewrite !projection_nth
    by (try assumption; eapply shapes_agree_rows; eassumption).
  rewrite Hmixed_nth by exact Hrow.
  apply reduce_sum_zip_linear; rewrite ?length_map; congruence.
Qed.

Lemma project_distribution_linear_witness :
  exists projected projected' combined,
    project_distribution (matrix ex_supports) (matrix ex_weights)
                         (vector ex_target_support) true
    = Ok projected /\
    project_distribution (matrix ex_supports) (matrix ex_supports)
                         (vector ex_target_support) true
    = Ok projected' /\
    project_distribution
      (matrix ex_supports)
      (matrix (binary_op Qplus 2 (unary_op (Qmult 2) 2 ex_weights)
                                 (unary_op (Qmult (-3)) 2 ex_supports)))
      (vector ex_target_support) true
    = Ok combined /\
    forall row j,
      (row < length ex_supports)%nat -> (j < length ex_target_support)%nat ->
      nth j (nth row combined []) 0
      == 2 * nth j (nth row projected []) 0 + (-3) * nth j (nth row projected' []) 0.
Proof.
  apply (project_distribution_linear ex_supports ex_weights ex_supports
                                     ex_target_support true 2 (-3)).
  - exact ex_shapes_agree.
  - unfold shapes_agree. simpl. repeat split; try lia; repeat constructor.
  - right. exact ex_valid_target_support.
Defined.

(** ** [project_distribution]: linear interpolation and the first moment *)

Lemma tent_rising (d y : Q) : 0 < d -> - d <= y <= 0 -> tent d y == (d + y) / d.
Proof.
  intros Hd Hy. rewrite (tent_unit d y (y / d) Hd) by reflexivity.
  assert (H0 : y / d <= 0) by (apply Qle_shift_div_r; [exact Hd | lra]).
  assert (H1 : -1 <= y / d) by (apply Qle_shift_div_l; [exact Hd | lra]).
  assert (E : (d + y) / d == 1 + y / d) by (field; lra).
  rewrite E. piecewise.
Qed.

Lemma tent_falling (d y : Q) : 0 < d -> 0 <= y <= d -> tent d y == (d - y) / d.
Proof.
  intros Hd Hy. rewrite (tent_unit d y (y / d) Hd) by reflexivity.
  assert (H0 : 0 <= y / d) by (apply Qle_shift_div_l; [exact Hd | lra]).
  assert (H1 : y / d <= 1) by (apply Qle_shift_div_r; [exact Hd | lra]).
  assert (E : (d - y) / d == 1 - y / d) by (field; lra).
  rewrite E. piecewise.
Qed.

Lemma tent_outside (d y : Q) : 0 < d -> d <= y \/ y <= - d -> tent d y == 0.
Proof.
  intros Hd Hy. rewrite (tent_unit d y (y / d) Hd) by reflexivity.
  assert (H : 1 <= y / d \/ y / d <= -1).
  { destruct Hy as [Hy|Hy]; [left|right].
    - apply Qle_shift_div_l; [exact Hd | lra].
    - apply Qle_shift_div_r; [exact Hd | lra]. }
  piecewise.
Qed.

(** Two atoms that are not the same are at least one spacing apart. *)
Lemma atoms_gap (a d : Q) (l : list Q) (i j : nat) :
  0 < d -> arith_from a d l -> (i < j)%nat -> (j < length l)%nat ->
  nth i l 0 + d <= nth j l 0.
Proof.
  intros Hd H Hij Hj.
  rewrite (arith_from_nth a d l i H) by lia.
  rewrite (arith_from_nth a d l j H Hj).
  pose proof (index_gap i j Hij) as Hgap.
  pose proof (Qmult_le_compat_r _ _ d Hgap (Qlt_le_weak _ _ Hd)).
  lra.
Qed.

Lemma atoms_step (a d : Q) (l : list Q) (k : nat) :
  arith_from a d l -> (S k < length l)%nat ->
  nth (S k) l 0 == nth k l 0 + d.
Proof.
  intros H Hk.
  rewrite (arith_from_nth a d l (S k) H Hk).
  rewrite (arith_from_nth a d l k H) by lia.
  rewrite index_succ. ring.
Qed.

(** What a source point between two adjacent atoms gives to one atom. *)
Lemma contribution_interpolated
    supports weights target_support row i k j :
  shapes_agree supports weights target_support ->
  valid_target_support target_support ->
  (row < length supports)%nat -> (i < length target_support)%nat ->
  (S k < length target_support)%nat -> (j < length target_support)%nat ->
  nth k target_support 0 <= nth i (nth row supports []) 0
                         <= nth (S k) target_support 0 ->
  let x := nth i (nth row supports []) 0 in
  let w := nth i (nth row weights []) 0 in
  let delta_z := delta_z_of target_support in
  contribution supports weights target_support row j i
  == if Nat.eqb j k then (nth (S k) target_support 0 - x) / delta_z * w
     else if Nat.eqb j (S k) then (x - nth k target_support 0) / delta_z * w
     else 0.
Proof.
  intros Hshapes Hvalid Hrow Hi Hk Hj Hx x w delta_z.
  assert (HN : (2 <= length target_support)%nat) by apply Hshapes.
  destruct (valid_target_support_arith _ HN Hvalid) as [Hd Harith].
  fold delta_z in Hd, Harith. fold x in Hx.
  rewrite contribution_eq by assumption. fold x; fold w; fold delta_z.
  pose proof (atoms_in_range _ _ _ k Hd Harith ltac:(lia)) as Hlo.
  pose proof (atoms_in_range _ _ _ (S k) Hd Harith Hk) as Hhi.
  pose proof (atoms_step _ _ _ k Harith Hk) as Hstep.
  unfold overlap. rewrite (clip_by_value_inside x)
    by (unfold v_max; split; [apply Qle_trans with (nth k target_support 0)
                             | apply Qle_trans with (nth (S k) target_support 0)];
        tauto).
  change (clip_by_value (1 - Qabs ?y / delta_z) 0 1) with (tent delta_z y).
  destruct (Nat.eqb_spec j k) as [->|Hjk].
  - rewrite tent_falling by (try exact Hd; lra).
    assert (E : (delta_z - (x - nth k target_support 0)) / delta_z
                == (nth (S k) target_support 0 - x) / delta_z)
      by (rewrite Hstep; field; lra).
    rewrite E. reflexivity.
  - destruct (Nat.eqb_spec j (S k)) as [->|HjSk].
    + rewrite tent_rising by (try exact Hd; lra).
      assert (E : (delta_z + (x - nth (S k) target_support 0)) / delta_z
                  == (x - nth k target_support 0) / delta_z)
        by (rewrite Hstep; field; lra).
      rewrite E. reflexivity.
    + rewrite tent_outside; [ring | exact Hd |].
      destruct (Nat.lt_ge_cases j k) as [Hlt|Hge].
      * left. pose proof (atoms_gap _ _ _ j k Hd Harith Hlt ltac:(lia)). lra.
      * right. assert (Hlt : (S k < j)%nat) by lia.
        pose proof (atoms_gap _ _ _ (S k) j Hd Harith Hlt Hj). lra.
Qed.

(** X8.  Linear interpolation: for a valid [target_support] the call
    returns, entry [j] of row [row] of the result is the sum over the source
    points of their contributions [inner_prod[0, row, j, i]], and a source
    point lying between two adjacent atoms [k] and [k + 1] splits its weight
    between these two, in proportion to its distance from the other one,
    and gives nothing to any other atom. *)
Theorem project_distribution_interpolation
    supports weights target_support validate_args row i k j :
  shapes_agree supports weights target_support ->
  valid_target_support target_support ->
  (row < length supports)%nat -> (i < length target_support)%nat ->
  (S k < length target_support)%nat -> (j < length target_support)%nat ->
  nth k target_support 0 <= nth i (nth row supports []) 0
                         <= nth (S k) target_support 0 ->
  let x := nth i (nth row supports []) 0 in
  let w := nth i (nth row weights []) 0 in
  let delta_z := delta_z_of target_support in
  exists projected,
    project_distribution (matrix supports) (matrix weights)
                         (vector target_support) validate_args
    = Ok projected /\
    nth j (nth row projected []) 0
    = sum_over (length target_support)
               (contribution supports weights target_support row j) /\
    contribution supports weights target_support row j i
    == if Nat.eqb j k then (nth (S k) target_support 0 - x) / delta_z * w
       else if Nat.eqb j (S k) then (x - nth k target_support 0) / delta_z * w
       else 0.
Proof.
  intros Hshapes Hvalid Hrow Hi Hk Hj Hx x w delta_z.
  exists (projection supports weights target_support (delta_z_of target_support)).
  split; [apply project_distribution_returns; [exact Hshapes | now right]|].
  split; [apply projection_sums_contributions; assumption|].
  apply contribution_interpolated; assumption.
Qed.

Lemma project_distribution_interpolation_witness :
  exists projected,
    project_distribution (matrix [[9 # 2; 5; 6; 7; 8]]) (matrix [[1; 0; 0; 0; 0]])
                         (vector ex_target_support) true
    = Ok projected /\
    nth 1 (nth 0 projected []) 0
    = sum_over 5 (contribution [[9 # 2; 5; 6; 7; 8]] [[1; 0; 0; 0; 0]]
                               ex_target_support 0 1) /\
    contribution [[9 # 2; 5; 6; 7; 8]] [[1; 0; 0; 0; 0]] ex_target_support 0 1 0
    == 1 # 2.
Proof.
  assert (Hshapes : shapes_agree [[9 # 2; 5; 6; 7; 8]] [[1; 0; 0; 0; 0]]
                                 ex_target_support).
  { unfold shapes_agree. simpl. repeat split; try lia; repeat constructor. }
  assert (Hx : nth 0 ex_target_support 0
               <= nth 0 (nth 0 [[9 # 2; 5; 6; 7; 8]] []) 0
               <= nth 1 ex_target_support 0).
  { split; vm_compute; discriminate. }
  destruct (project_distribution_interpolation
              [[9 # 2; 5; 6; 7; 8]] [[1; 0; 0; 0; 0]] ex_target_support
              true 0 0 0 1 Hshapes ex_valid_target_support)
    as (projected & Hcall & Hsum & Hsplit); [simpl; lia .. | exact Hx |].
  exists projected. split; [exact Hcall | split; [exact Hsum|]].
  rewrite Hsplit. vm_compute. reflexivity.
Defined.

Lemma reduce_sum_plus {A} (f g : A -> Q) (l : list A) :
  reduce_sum (map (fun z => f z + g z) l)
  == reduce_sum (map f l) + reduce_sum (map g l).
Proof.
  induction l as [|z l IH]; [unfold reduce_sum; simpl; lra|].
  cbn [map]. rewrite !reduce_sum_cons, IH. lra.
Qed.

Lemma reduce_sum_scale_l {A} (f : A -> Q) (c : Q) (l : list A) :
  reduce_sum (map (fun z => c * f z) l) == c * reduce_sum (map f l).
Proof.
  induction l as [|z l IH]; [unfold reduce_sum; simpl; lra|].
  cbn [map]. rewrite !reduce_sum_cons, IH. lra.
Qed.

Lemma zip_with_diag {A B C} (f : A -> B -> C) (g : A -> B) (l : list A) :
  zip_with f l (map g l) = map (fun x => f x (g x)) l.
Proof.
  induction l as [|x l IH]; simpl; [reflexivity|]. now rewrite IH.
Qed.

(** The tents weighted by the index of their atom add up, at a point [c] not
    beyond the last atom, to the position of [c] counted in spacings from
    the first atom (0 before it). *)
Lemma tent_index_sum_upto (a d c : Q) (l : list Q) :
  0 < d -> l <> [] -> arith_from a d l -> c <= last l 0 ->
  reduce_sum (map (fun z => (z - a) / d * tent d (c - z)) l)
  == Qmax ((c - a) / d) 0.
Proof.
  intros Hd. revert a. induction l as [|z l IH]; intros a Hne H Hc;
    [congruence|].
  destruct H as [Hz Hl]. cbn [map]. rewrite reduce_sum_cons.
  assert (E0 : (z - a) / d == 0) by (rewrite Hz; field; lra).
  rewrite E0. destruct l as [|z' l'].
  - cbn [map]. unfold reduce_sum. cbn [fold_right]. simpl in Hc.
    assert (Hu : (c - a) / d <= 0) by (apply Qle_shift_div_r; [exact Hd | lra]).
    piecewise.
  - assert (Hsplit : reduce_sum (map (fun y => (y - a) / d * tent d (c - y))
                                     (z' :: l'))
                     == reduce_sum (map (fun y => (y - (a + d)) / d * tent d (c - y))
                                        (z' :: l'))
                        + reduce_sum (map (fun y => tent d (c - y)) (z' :: l'))).
    { rewrite <- reduce_sum_plus. apply reduce_sum_map_ext. intros y _.
      field. lra. }
    rewrite Hsplit.
    rewrite (IH (a + d)); [| discriminate | exact Hl | exact Hc].
    rewrite (tent_sum_upto (a + d) d c); [| exact Hd | discriminate | exact Hl | exact Hc].
    assert (E : (c - (a + d)) / d == (c - a) / d - 1) by (field; lra).
    rewrite E. piecewise.
Qed.

(** The first moment of the tents: at a point [c] on the support they
    reproduce [c]. *)
Lemma tent_first_moment (a d c : Q) (l : list Q) :
  0 < d -> l <> [] -> arith_from a d l -> a <= c <= last l 0 ->
  reduce_sum (map (fun z => z * tent d (c - z)) l) == c.
Proof.
  intros Hd Hne H [Ha Hc].
  assert (Hsplit : reduce_sum (map (fun z => z * tent d (c - z)) l)
                   == a * reduce_sum (map (fun z => tent d (c - z)) l)
                      + d * reduce_sum (map (fun z => (z - a) / d * tent d (c - z)) l)).
  { rewrite <- !reduce_sum_scale_l, <- reduce_sum_plus.
    apply reduce_sum_map_ext. intros z _. field. lra. }
  rewrite Hsplit.
  rewrite (tent_sum_one a d c l Hd Hne H (conj Ha Hc)).
  rewrite (tent_index_sum_upto a d c l Hd Hne H Hc).
  assert (Hu : 0 <= (c - a) / d) by (apply Qle_shift_div_l; [exact Hd | lra]).
  rewrite (Q.max_l _ _ Hu). field. lra.
Qed.

(** The first moment of a projected row, on the body. *)
Lemma projection_first_moment supports weights target_support row :
  shapes_agree supports weights target_support ->
  valid_target_support target_support ->
  (row < length supports)%nat ->
  expected_value target_support
    (nth row (projection supports weights target_support
                         (delta_z_of target_support)) [])
  == expected_value
       (map (fun x => clip_by_value x (v_min target_support) (v_max target_support))
            (nth row supports []))
       (nth row weights []).
Proof.
  intros Hshapes Hvalid Hrow.
  pose proof (shapes_agree_rows _ _ _ Hshapes) as Hrows.
  destruct (shapes_agree_row_length _ _ _ row Hshapes Hrow) as [Hs Hw].
  assert (HN : (2 <= length target_support)%nat) by apply Hshapes.
  destruct (valid_target_support_arith _ HN Hvalid) as [Hd Harith].
  assert (Hne : target_support <> []).
  { destruct target_support; [simpl in HN; lia | discriminate]. }
  rewrite projection_eq by exact Hrows.
  rewrite (zip_with_nth _ supports weights row [] [] [])
    by (try exact Hrow; eapply Forall2_length; eassumption).
  set (srow := nth row supports []) in *.
  set (wrow := nth row weights []) in *.
  set (dz := delta_z_of target_support) in *.
  rewrite <- !expected_value_eq by (rewrite ?length_map; congruence).
  rewrite zip_with_diag.
  transitivity
    (reduce_sum
       (map (fun z => reduce_sum
                        (map (fun p => z * overlap target_support dz z (fst p) * snd p)
                             (combine srow wrow)))
            target_support)).
  { apply reduce_sum_map_ext. intros z _.
    rewrite <- (map_id wrow) at 1.
    rewrite zip_with_map, zip_with_as_map.
    rewrite <- reduce_sum_scale_l. apply reduce_sum_map_ext. intros p _.
    cbv beta. ring. }
  rewrite (reduce_sum_exchange
             (fun z p => z * overlap target_support dz z (fst p) * snd p)).
  rewrite <- (map_id wrow) at 2. rewrite zip_with_map, zip_with_as_map.
  apply reduce_sum_map_ext. intros p _.
  rewrite (reduce_sum_scale (fun z => z * overlap target_support dz z (fst p))).
  assert (E : reduce_sum (map (fun z => z * overlap target_support dz z (fst p))
                              target_support)
              == clip_by_value (fst p) (v_min target_support)
                               (v_max target_support)).
  { apply (tent_first_moment (v_min target_support) dz
             (clip_by_value (fst p) (v_min target_support) (v_max target_support))
             target_support Hd Hne Harith).
    apply clipped_in_range; assumption. }
  rewrite E. reflexivity.
Qed.

(** X9.  The first moment is kept up to clipping: for a valid
    [target_support], the mean of a projected row over the target atoms
    equals the mean of the source row with every source point clipped to
    [[v_min, v_max]]; when no source point of the row lies outside that
    interval it is the mean of the source row itself. *)
Theorem project_distribution_first_moment
    supports weights target_support validate_args row :
  shapes_agree supports weights target_support ->
  valid_target_support target_support ->
  (row < length supports)%nat ->
  exists projected,
    project_distribution (matrix supports) (matrix weights)
                         (vector target_support) validate_args
    = Ok projected /\
    expected_value target_support (nth row projected [])
    == expected_value
         (map (fun x => clip_by_value x (v_min target_support)
                                      (v_max target_support))
              (nth row supports []))
         (nth row weights []) /\
    (Forall (fun x => v_min target_support <= x <= v_max target_support)
            (nth row supports []) ->
     expected_value target_support (nth row projected [])
     == expected_value (nth row supports []) (nth row weights [])).
Proof.
  intros Hshapes Hvalid Hrow. eexists.
  split; [apply project_distribution_returns; [assumption | now right]|].
  pose proof (projection_first_moment _ _ _ row Hshapes Hvalid Hrow) as Hmoment.
  split; [exact Hmoment|].
  intros Hinside. rewrite Hmoment.
  destruct (shapes_agree_row_length _ _ _ row Hshapes Hrow) as [Hs Hw].
  rewrite <- !expected_value_eq by (rewrite ?length_map; congruence).
  rewrite <- (map_id (nth row weights [])) at 1.
  rewrite <- (map_id (nth row supports [])) at 2.
  rewrite <- (map_id (nth row weights [])) at 2.
  rewrite !zip_with_map. apply reduce_sum_ext.
  apply (zip_with_Forall2 _ _ _
           (fun x => v_min target_support <= x <= v_max target_support)
           (fun _ => True)); [| exact Hinside | apply Forall_forall; trivial].
  intros x w Hx _. cbv beta.
  rewrite (clip_by_value_inside x) by exact Hx. reflexivity.
Qed.

Lemma project_distribution_first_moment_witness :
  exists projected,
    project_distribution (matrix ex_supports) (matrix ex_weights)
                         (vector ex_target_support) true
    = Ok projected /\
    expected_value ex_target_support (nth 1 projected [])
    == expected_value
         (map (fun x => clip_by_value x (v_min ex_target_support)
                                      (v_max ex_target_support))
              (nth 1 ex_supports []))
         (nth 1 ex_weights []) /\
    (Forall (fun x => v_min ex_target_support <= x <= v_max ex_target_support)
            (nth 1 ex_supports []) ->
     expected_value ex_target_support (nth 1 projected [])
     == expected_value (nth 1 ex_supports []) (nth 1 ex_weights [])).
Proof.
  apply (project_distribution_first_moment
           ex_supports ex_weights ex_target_support true 1).
  - exact ex_shapes_agree.
  - exact ex_valid_target_support.
  - simpl. lia.
Defined.

(** ** The support the agent is built with *)

Lemma arith_from_deltas (a d : Q) (l : list Q) :
  arith_from a d l -> Forall (fun e => e == d) (deltas_of l).
Proof.
  revert a. induction l as [|z l IH]; intros a H.
  - constructor.
  - destruct l as [|z' l'].
    + constructor.
    + destruct H as [Hz [Hz' Hl]]. rewrite deltas_of_cons. constructor.
      * rewrite Hz, Hz'. ring.
      * apply (IH (a + d)). split; assumption.
Qed.

(** A list that steps by a positive [d] is a valid [target_support]. *)
Lemma arith_from_valid (a d : Q) (l : list Q) :
  0 < d -> arith_from a d l -> (2 <= length l)%nat ->
  valid_target_support l /\ delta_z_of l == d.
Proof.
  intros Hd H HN. pose proof (arith_from_deltas a d l H) as Hdeltas.
  assert (Hdz : delta_z_of l == d).
  { destruct l as [|z0 [|z1 zs]]; simpl in HN; try lia.
    unfold delta_z_of. rewrite deltas_of_cons in *. cbn [hd].
    now inversion Hdeltas. }
  split; [|exact Hdz]. split.
  - unfold monotonically_increasing. eapply Forall_impl; [|exact Hdeltas].
    cbv beta. intros e He. rewrite He. exact Hd.
  - unfold equally_spaced. eapply Forall_impl; [|exact Hdeltas].
    cbv beta. intros e He. now rewrite He, Hdz.
Qed.

Lemma arith_from_map_seq (start step : Q) (s n : nat) :
  arith_from (start + inject_Z (Z.of_nat s) * step) step
             (map (fun i => start + inject_Z (Z.of_nat i) * step) (seq s n)).
Proof.
  revert s. induction n as [|n IH]; intros s; cbn [seq map arith_from];
    [exact I|].
  split; [reflexivity|].
  apply (arith_from_wd (start + inject_Z (Z.of_nat (S s)) * step));
    [rewrite index_succ; ring | apply IH].
Qed.

Lemma linspace_arith_from (start stop : Q) (num : nat) :
  (2 <= num)%nat ->
  arith_from start ((stop - start) / inject_Z (Z.of_nat (num - 1)))
             (linspace start stop num).
Proof.
  intros H. unfold linspace. destruct num as [|[|n]]; try lia.
  apply (arith_from_wd (start + inject_Z (Z.of_nat 0)
                                * ((stop - start) / inject_Z (Z.of_nat (S (S n) - 1)))));
    [change (inject_Z (Z.of_nat 0)) with 0; ring | apply arith_from_map_seq].
Qed.

Lemma index_positive (n : nat) : (1 <= n)%nat -> 0 < inject_Z (Z.of_nat n).
Proof.
  intros H. change 0 with (inject_Z 0). rewrite <- Zlt_Qlt. lia.
Qed.

(** The support of an agent with [min_q_value < max_q_value] and at least
    two atoms: valid, from [min_q_value] to [max_q_value]. *)
Lemma support_valid (self : CategoricalDqnAgent) :
  (2 <= _num_atoms self)%nat -> _min_q_value self < _max_q_value self ->
  valid_target_support (_support self) /\
  v_min (_support self) == _min_q_value self /\
  v_max (_support self) == _max_q_value self /\
  delta_z_of (_support self)
  == (_max_q_value self - _min_q_value self)
     / inject_Z (Z.of_nat (_num_atoms self - 1)).
Proof.
  intros HN Hlt. unfold _support.
  set (lo := _min_q_value self) in *. set (hi := _max_q_value self) in *.
  set (n := _num_atoms self) in *.
  pose proof (linspace_arith_from lo hi n HN) as Harith.
  pose proof (index_positive (n - 1) ltac:(lia)) as Hpos.
  assert (Hd : 0 < (hi - lo) / inject_Z (Z.of_nat (n - 1))).
  { apply Qlt_shift_div_l; [exact Hpos | lra]. }
  assert (Hlen : (2 <= length (linspace lo hi n))%nat)
    by now rewrite linspace_length.
  destruct (arith_from_valid _ _ _ Hd Harith Hlen) as [Hvalid Hdz].
  split; [exact Hvalid|]. split; [|split; [|exact Hdz]].
  - unfold v_min. rewrite (arith_from_nth _ _ _ 0 Harith) by lia.
    change (inject_Z (Z.of_nat 0)) with 0. ring.
  - unfold v_max. rewrite (arith_from_last _ _ _ Harith)
      by (destruct (linspace lo hi n); [simpl in Hlen; lia | discriminate]).
    rewrite linspace_length. field. lra.
Qed.

(** ** [_next_q_distribution]: what the rows are, and the empty action set *)

Lemma traverse_raises {A B} (f : A -> result B) (l : list A) (e : error) :
  (forall x e', f x = Raise e' -> e' = e) ->
  (exists x, In x l /\ f x = Raise e) ->
  traverse f l = Raise e.
Proof.
  intros Honly. induction l as [|x l IH]; intros (y & Hin & Hy);
    [destruct Hin|].
  cbn [traverse]. destruct (f x) as [b|e'] eqn:Hx; cbn [bind].
  - destruct Hin as [->|Hin]; [congruence|].
    rewrite IH by (exists y; split; assumption). reflexivity.
  - now rewrite (Honly x e' Hx).
Qed.

Lemma argmax_raises (l : list Q) (e : error) :
  argmax l = Raise e -> e = InvalidArgumentError.
Proof. destruct l; simpl; congruence. Qed.

Section NextQDistributionRows.

Variables Observation StepType NetworkState BatchSquash : Type.
Variable target_q_network : Observation -> StepType -> Tensor * NetworkState.
Variable softmax : list Q -> list Q.
Variable flatten : BatchSquash -> Tensor -> Tensor.

(** Every returned row is the softmax of one of the logit rows of its batch
    element. *)
Lemma next_q_distribution_rows
    (self : CategoricalDqnAgent) (next_time_steps : TimeStep Observation StepType)
    (batch_squash : option BatchSquash) (logits : ndarray 3) :
  (forall row, length (softmax row) = length row) ->
  (let network_output :=
     fst (target_q_network (observation _ _ next_time_steps)
                           (step_type _ _ next_time_steps)) in
   match batch_squash with
   | Some squash => flatten squash network_output
   | None => network_output
   end) = mkTensor 3 logits ->
  Forall (fun actions =>
            actions <> [] /\
            Forall (fun row => length row = _num_atoms self) actions) logits ->
  exists next_q,
    _next_q_distribution _ _ _ _ target_q_network softmax flatten self
                         next_time_steps batch_squash
    = Ok next_q /\
    length next_q = length logits /\
    forall b, (b < length logits)%nat ->
      exists a, (a < length (nth b logits []))%nat /\
                nth b next_q [] = softmax (nth a (nth b logits []) []).
Proof.
  intros softmax_length Hread Hlogits.
  assert (Hprobs : Forall (fun actions =>
                     actions <> [] /\
                     Forall (fun row => length row = length (_support self))
                            actions)
                   (map (map softmax) logits)).
  { apply Forall_forall. intros probabilities Hin.
    apply in_map_iff in Hin. destruct Hin as (actions & <- & Hin).
    rewrite Forall_forall in Hlogits. destruct (Hlogits _ Hin) as [Hne Hrows].
    split.
    - destruct actions; [congruence | discriminate].
    - apply Forall_forall. intros row Hrow.
      apply in_map_iff in Hrow. destruct Hrow as (logit_row & <- & Hrow).
      rewrite Forall_forall in Hrows.
      rewrite softmax_length. unfold _support. rewrite linspace_length.
      apply Hrows, Hrow. }
  destruct (greedy_rows (_support self) (map (map softmax) logits) Hprobs)
    as (next_q & Hcall & Hlen & Hgreedy).
  exists next_q. split; [|split].
  - unfold _next_q_distribution.
    destruct (target_q_network (observation _ _ next_time_steps)
                               (step_type _ _ next_time_steps)) as [t state].
    cbn [fst] in Hread. cbv zeta in Hread. rewrite Hread.
    cbn [bind as_rank3]. exact Hcall.
  - now rewrite Hlen, length_map.
  - intros b Hb.
    destruct (Hgreedy b) as (a & [Ha _] & Hrow); [now rewrite length_map|].
    rewrite (nth_map_in (map softmax) logits b [] [] Hb) in Ha, Hrow.
    rewrite length_map in Ha. exists a. split; [exact Ha|].
    rewrite Hrow. apply (nth_map_in softmax _ a [] [] Ha).
Qed.

(** X11.  The next-state distribution is a probability distribution: when
    the softmax of every logit row is non-negative and sums to 1, so is
    every row [_next_q_distribution] returns. *)
Theorem next_q_distribution_is_distribution
    (self : CategoricalDqnAgent) (next_time_steps : TimeStep Observation StepType)
    (batch_squash : option BatchSquash) (logits : ndarray 3) :
  (forall row, length (softmax row) = length row) ->
  (let network_output :=
     fst (target_q_network (observation _ _ next_time_steps)
                           (step_type _ _ next_time_steps)) in
   match batch_squash with
   | Some squash => flatten squash network_output
   | None => network_output
   end) = mkTensor 3 logits ->
  Forall (fun actions =>
            actions <> [] /\
            Forall (fun row => length row = _num_atoms self) actions) logits ->
  Forall (Forall (fun row => Forall (fun p => 0 <= p) (softmax row) /\
                             reduce_sum (softmax row) == 1)) logits ->
  exists next_q,
    _next_q_distribution _ _ _ _ target_q_network softmax flatten self
                         next_time_steps batch_squash
    = Ok next_q /\
    Forall (fun row => Forall (fun p => 0 <= p) row /\ reduce_sum row == 1) next_q.
Proof.
  intros softmax_length Hread Hlogits Hsoftmax.
  destruct (next_q_distribution_rows self next_time_steps batch_squash logits
              softmax_length Hread Hlogits) as (next_q & Hcall & Hlen & Hrows).
  exists next_q. split; [exact Hcall|].
  apply Forall_forall. intros row Hin.
  destruct (In_nth _ _ [] Hin) as (b & Hb & <-).
  destruct (Hrows b) as (a & Ha & ->); [lia|].
  rewrite Forall_forall in Hsoftmax.
  specialize (Hsoftmax (nth b logits []) ltac:(apply nth_In; lia)).
  rewrite Forall_forall in Hsoftmax.
  apply (Hsoftmax (nth a (nth b logits []) [])), nth_In, Ha.
Qed.

(** X12.  A batch element without any action makes the call raise: the
    argmax over its expected values has nothing to choose from. *)
Theorem next_q_distribution_no_action
    (self : CategoricalDqnAgent) (next_time_steps : TimeStep Observation StepType)
    (batch_squash : option BatchSquash) (logits : ndarray 3) :
  (let network_output :=
     fst (target_q_network (observation _ _ next_time_steps)
                           (step_type _ _ next_time_steps)) in
   match batch_squash with
   | Some squash => flatten squash network_output
   | None => network_output
   end) = mkTensor 3 logits ->
  In [] logits ->
  _next_q_distribution _ _ _ _ target_q_network softmax flatten self
                       next_time_steps batch_squash
  = Raise InvalidArgumentError.
Proof.
  intros Hread Hempty. unfold _next_q_distribution.
  destruct (target_q_network (observation _ _ next_time_steps)
                             (step_type _ _ next_time_steps)) as [t state].
  cbn [fst] in Hread. cbv zeta in Hread. rewrite Hread.
  cbn [bind as_rank3].
  rewrite (traverse_raises argmax _ InvalidArgumentError); [reflexivity | |].
  - intros l e. apply argmax_raises.
  - exists []. split; [|reflexivity].
    cbn [binary_op broadcast]. rewrite !map_map.
    apply in_map_iff. exists []. split; [reflexivity | exact Hempty].
Qed.

End NextQDistributionRows.

Lemma next_q_distribution_is_distribution_witness :
  let network := fun (_ _ : unit) => (mkTensor 3 [[[1; 3]; [3; 1]]], tt) in
  let normalize := fun row : list Q => map (fun x => x / reduce_sum row) row in
  let agent := {| _num_atoms := 2; _min_q_value := 0; _max_q_value := 1;
                  _n_step_update := 1; _gamma := 1; _reward_scale_factor := 1 |} in
  let steps := {| step_type := tt; reward := [0]; discount := [1];
                  observation := tt |} in
  exists next_q,
    _next_q_distribution unit unit unit unit network normalize (fun _ t => t)
                         agent steps None
    = Ok next_q /\
    Forall (fun row => Forall (fun p => 0 <= p) row /\ reduce_sum row == 1) next_q.
Proof.
  intros network normalize agent steps.
  apply (next_q_distribution_is_distribution unit unit unit unit network normalize
           (fun _ t => t) agent steps None [[[1; 3]; [3; 1]]]).
  - intros row. apply length_map.
  - reflexivity.
  - repeat constructor. discriminate.
  - repeat constructor; vm_compute; (discriminate || reflexivity).
Defined.

Lemma next_q_distribution_no_action_witness :
  let network := fun (_ _ : unit) => (mkTensor 3 [[[1; 3]; [3; 1]]; []], tt) in
  let agent := {| _num_atoms := 2; _min_q_value := 0; _max_q_value := 1;
                  _n_step_update := 1; _gamma := 1; _reward_scale_factor := 1 |} in
  let steps := {| step_type := tt; reward := [0; 0]; discount := [1; 1];
                  observation := tt |} in
  _next_q_distribution unit unit unit unit network (fun row => row) (fun _ t => t)
                       agent steps None
  = Raise InvalidArgumentError.
Proof.
  intros network agent steps.
  apply (next_q_distribution_no_action unit unit unit unit network
           (fun row => row) (fun _ t => t) agent steps None
           [[[1; 3]; [3; 1]]; []]).
  - reflexivity.
  - simpl. auto.
Defined.

(** ** [_loss]: the logits of the taken actions *)

(** X13.  [chosen_action_logits] picks, for every batch element, the logits
    row of the action taken there: given one action per batch element, each
    within the number of actions, row [b] of the result is
    [q_logits[b, actions[b]]]. *)
Theorem chosen_action_logits_rows (q_logits : ndarray 3) (actions : list nat) :
  length actions = length q_logits ->
  (forall b, (b < length q_logits)%nat ->
             (nth b actions 0 < length (nth b q_logits []))%nat) ->
  exists chosen,
    chosen_action_logits q_logits actions = Ok chosen /\
    length chosen = length q_logits /\
    forall b, (b < length q_logits)%nat ->
      nth b chosen [] = nth (nth b actions 0%nat) (nth b q_logits []) [].
Proof.
  intros Hlen Hrange. unfold chosen_action_logits.
  assert (Hidx : concat_last (map (fun b => [b]) (seq 0 (length q_logits)))
                             (map (fun a => [a]) actions)
                 = map (fun b => [b; nth b actions 0%nat])
                       (seq 0 (length q_logits))).
  { unfold concat_last. rewrite zip_with_map.
    rewrite (zip_with_as_seq _ (seq 0 (length q_logits)) actions 0%nat 0%nat)
      by (rewrite length_seq; congruence).
    rewrite length_seq. apply map_ext_in. intros b Hb. apply in_seq in Hb.
    rewrite seq_nth by lia. reflexivity. }
  rewrite Hidx. unfold gather_nd.
  rewrite (traverse_map_ok _ _
             (fun b => nth (nth b actions 0%nat) (nth b q_logits []) [])).
  2:{ intros b Hb. apply in_seq in Hb.
      rewrite (nth_error_nth' q_logits []) by lia.
      now rewrite (nth_error_nth' (nth b q_logits []) []) by (apply Hrange; lia). }
  eexists. split; [reflexivity|]. split; [now rewrite length_map, length_seq|].
  intros b Hb.
  rewrite (nth_map_in _ (seq 0 (length q_logits)) b 0%nat [])
    by now rewrite length_seq.
  now rewrite seq_nth by exact Hb.
Qed.

Lemma chosen_action_logits_rows_witness :
  exists chosen,
    chosen_action_logits [[[1; 2]; [3; 4]]; [[5; 6]; [7; 8]]] [1%nat; 0%nat]
    = Ok chosen /\
    length chosen = 2%nat /\
    forall b, (b < 2)%nat ->
      nth b chosen []
      = nth (nth b [1%nat; 0%nat] 0%nat)
            (nth b [[[1; 2]; [3; 4]]; [[5; 6]; [7; 8]]] []) [].
Proof.
  apply (chosen_action_logits_rows [[[1; 2]; [3; 4]]; [[5; 6]; [7; 8]]]
                                   [1%nat; 0%nat]).
  - reflexivity.
  - intros b Hb. destruct b as [|[|b]]; simpl in *; lia.
Defined.

(** ** [_loss]: the 1-step target support and target distribution *)

Lemma one_step_target_support_row
    (self : CategoricalDqnAgent) (batch_size : nat) (gamma reward_scale_factor : Q)
    (rewards discounts : list Q) (b : nat) :
  length rewards = batch_size -> length discounts = batch_size ->
  (b < batch_size)%nat ->
  nth b (one_step_target_support self batch_size gamma reward_scale_factor
                                 (rewards, discounts)) []
  = map (fun s => reward_scale_factor * nth b rewards 0
                  + gamma * (nth b discounts 0 * s))
        (_support self).
Proof.
  intros Hr Hd Hb. rewrite one_step_target_support_eq by assumption.
  rewrite (zip_with_nth _ rewards discounts b 0 0 []) by lia. reflexivity.
Qed.

Lemma one_step_target_support_length
    (self : CategoricalDqnAgent) (batch_size : nat) (gamma reward_scale_factor : Q)
    (rewards discounts : list Q) :
  length rewards = batch_size -> length discounts = batch_size ->
  length (one_step_target_support self batch_size gamma reward_scale_factor
                                  (rewards, discounts)) = batch_size.
Proof.
  intros Hr Hd. rewrite one_step_target_support_eq by assumption.
  rewrite zip_with_length; congruence.
Qed.

(** X14.  The 1-step target support is the support, scaled and shifted per
    batch element: it has one row per batch element and one entry per atom,
    and [target_support[b, k] = reward_scale_factor * reward[b]
    + gamma * discount[b] * support[k]]. *)
Theorem one_step_target_support_entries
    (self : CategoricalDqnAgent) (batch_size : nat) (gamma reward_scale_factor : Q)
    (rewards discounts : list Q) :
  length rewards = batch_size -> length discounts = batch_size ->
  let target_support :=
    one_step_target_support self batch_size gamma reward_scale_factor
                            (rewards, discounts) in
  length target_support = batch_size /\
  forall b, (b < batch_size)%nat ->
    length (nth b target_support []) = _num_atoms self /\
    forall k, (k < _num_atoms self)%nat ->
      nth k (nth b target_support []) 0
      == reward_scale_factor * nth b rewards 0
         + gamma * nth b discounts 0 * nth k (_support self) 0.
Proof.
  intros Hr Hd target_support. subst target_support.
  split; [apply one_step_target_support_length; assumption|].
  intros b Hb. rewrite one_step_target_support_row by assumption.
  split.
  - rewrite length_map. unfold _support. apply linspace_length.
  - intros k Hk.
    rewrite (nth_map_in _ (_support self) k 0 0)
      by (unfold _support; now rewrite linspace_length).
    ring.
Qed.

Lemma one_step_target_support_entries_witness :
  let agent := {| _num_atoms := 3; _min_q_value := 0; _max_q_value := 2;
                  _n_step_update := 1; _gamma := 9 # 10;
                  _reward_scale_factor := 1 |} in
  let target_support :=
    one_step_target_support agent 2 (9 # 10) 1 ([1; 2], [1; 0]) in
  length target_support = 2%nat /\
  forall b, (b < 2)%nat ->
    length (nth b target_support []) = _num_atoms agent /\
    forall k, (k < _num_atoms agent)%nat ->
      nth k (nth b target_support []) 0
      == 1 * nth b [1; 2] 0 + (9 # 10) * nth b [1; 0] 0 * nth k (_support agent) 0.
Proof.
  intros agent.
  apply (one_step_target_support_entries agent 2 (9 # 10) 1 [1; 2] [1; 0]);
    reflexivity.
Defined.

(** The inputs of the projection in [_loss] have agreeing shapes. *)
Lemma one_step_shapes_agree
    (self : CategoricalDqnAgent) (batch_size : nat) (gamma reward_scale_factor : Q)
    (rewards discounts : list Q) (next_q_distribution : list (list Q)) :
  (1 <= batch_size)%nat -> (2 <= _num_atoms self)%nat ->
  length rewards = batch_size -> length discounts = batch_size ->
  length next_q_distribution = batch_size ->
  Forall (fun row => length row = _num_atoms self) next_q_distribution ->
  shapes_agree
    (one_step_target_support self batch_size gamma reward_scale_factor
                             (rewards, discounts))
    next_q_distribution (_support self).
Proof.
  intros HB HN Hr Hd Hq Hrows.
  assert (Hlen : length (_support self) = _num_atoms self)
    by (unfold _support; apply linspace_length).
  pose proof (one_step_target_support_length self batch_size gamma
                reward_scale_factor rewards discounts Hr Hd) as Hts.
  unfold shapes_agree. rewrite Hts, Hlen. repeat split; try assumption.
  apply Forall_forall. intros row Hin.
  destruct (In_nth _ _ [] Hin) as (b & Hb & <-).
  rewrite one_step_target_support_row by (assumption || lia).
  now rewrite length_map.
Qed.

(** The sum of a projected row, on the body. *)
Lemma projection_row_sum supports weights target_support row :
  shapes_agree supports weights target_support ->
  valid_target_support target_support ->
  (row < length supports)%nat ->
  reduce_sum (nth row (projection supports weights target_support
                                  (delta_z_of target_support)) [])
  == reduce_sum (nth row weights []).
Proof.
  intros Hshapes Hvalid Hrow.
  pose proof (shapes_agree_rows _ _ _ Hshapes) as Hrows.
  destruct (shapes_agree_row_length _ _ _ row Hshapes Hrow) as [Hs Hw].
  assert (HN : (2 <= length target_support)%nat) by apply Hshapes.
  rewrite projection_eq by exact Hrows.
  rewrite (zip_with_nth _ supports weights row [] [] [])
    by (try exact Hrow; eapply Forall2_length; eassumption).
  set (srow := nth row supports []) in *.
  set (wrow := nth row weights []) in *.
  set (dz := delta_z_of target_support).
  transitivity
    (reduce_sum
       (map (fun z => reduce_sum
                        (map (fun p => overlap target_support dz z (fst p) * snd p)
                             (combine srow wrow)))
            target_support)).
  { apply reduce_sum_map_ext. intros z _.
    rewrite <- (map_id wrow) at 1.
    rewrite zip_with_map, zip_with_as_map. reflexivity. }
  rewrite (reduce_sum_exchange
             (fun z p => overlap target_support dz z (fst p) * snd p)).
  transitivity (reduce_sum (map snd (combine srow wrow))).
  { apply reduce_sum_map_ext. intros p _.
    rewrite (reduce_sum_scale (fun z => overlap target_support dz z (fst p))).
    subst dz. rewrite overlap_sum_one by assumption. lra. }
  rewrite map_snd_combine by congruence. reflexivity.
Qed.

(** The sign of a projected row, on the body. *)
Lemma projection_row_nonneg supports weights target_support delta_z row :
  shapes_agree supports weights target_support ->
  (row < length supports)%nat ->
  Forall (fun w => 0 <= w) (nth row weights []) ->
  Forall (fun p => 0 <= p)
         (nth row (projection supports weights target_support delta_z) []).
Proof.
  intros Hshapes Hrow Hweights.
  pose proof (shapes_agree_rows _ _ _ Hshapes) as Hrows.
  rewrite projection_eq by exact Hrows.
  rewrite (zip_with_nth _ supports weights row [] [] [])
    by (try exact Hrow; eapply Forall2_length; eassumption).
  apply Forall_forall. intros p Hp.
  apply in_map_iff in Hp. destruct Hp as (z & <- & _).
  apply reduce_sum_nonneg.
  apply (zip_with_Forall_both _ _ (fun q => 0 <= q) (fun w => 0 <= w));
    [| | exact Hweights].
  - intros q w Hq Hw. apply Qmult_le_0_compat; assumption.
  - apply Forall_forall. intros q Hq.
    apply in_map_iff in Hq. destruct Hq as (x & <- & _).
    apply overlap_range.
Qed.

Lemma affine_sum (g : Q -> Q) (c0 c1 : Q) (ss ps : list Q) :
  length ss = length ps ->
  (forall s, In s ss -> g s == c0 + c1 * s) ->
  reduce_sum (zip_with Qmult (map g ss) ps)
  == c0 * reduce_sum ps + c1 * reduce_sum (zip_with Qmult ss ps).
Proof.
  revert ps. induction ss as [|s ss IH]; intros [|p ps] Hlen Hg;
    simpl in Hlen; try discriminate.
  - unfold reduce_sum. simpl. lra.
  - cbn [map zip_with]. rewrite !reduce_sum_cons.
    rewrite (Hg s) by now left.
    rewrite IH by (try lia; intros s' Hs'; apply Hg; now right).
    ring.
Qed.

Lemma overlap_wd (target_support : list Q) (delta_z z x x' : Q) :
  x == x' ->
  overlap target_support delta_z z x == overlap target_support delta_z z x'.
Proof. intros H. unfold overlap. now rewrite H. Qed.

(** X15.  The target distribution of the 1-step branch is a probability
    distribution whenever the next-state distribution is one: for an agent
    with at least two atoms and [min_q_value < max_q_value], every row of
    [project_distribution(target_support, next_q_distribution, support)] is
    non-negative and sums to 1, one row per batch element. *)
Theorem one_step_target_distribution_is_distribution
    (self : CategoricalDqnAgent) (batch_size : nat) (gamma reward_scale_factor : Q)
    (rewards discounts : list Q) (next_q_distribution : list (list Q)) :
  (1 <= batch_size)%nat -> (2 <= _num_atoms self)%nat ->
  _min_q_value self < _max_q_value self ->
  length rewards = batch_size -> length discounts = batch_size ->
  length next_q_distribution = batch_size ->
  Forall (fun row => length row = _num_atoms self) next_q_distribution ->
  Forall (fun row => Forall (fun p => 0 <= p) row /\ reduce_sum row == 1)
         next_q_distribution ->
  exists target_distribution,
    one_step_target_distribution self batch_size gamma reward_scale_factor
                                 (rewards, discounts) next_q_distribution
    = Ok target_distribution /\
    length target_distribution = batch_size /\
    Forall (fun row => Forall (fun p => 0 <= p) row /\ reduce_sum row == 1)
           target_distribution.
Proof.
  intros HB HN Hlt Hr Hd Hq Hrows Hdist.
  pose proof (one_step_shapes_agree self batch_size gamma reward_scale_factor
                rewards discounts next_q_distribution HB HN Hr Hd Hq Hrows)
    as Hshapes.
  destruct (support_valid self HN Hlt) as (Hvalid & _).
  pose proof (one_step_target_support_length self batch_size gamma
                reward_scale_factor rewards discounts Hr Hd) as Hts.
  unfold one_step_target_distribution. eexists.
  split; [apply project_distribution_returns; [exact Hshapes | now left]|].
  set (target_support := one_step_target_support _ _ _ _ _) in *.
  assert (Hlen : length (projection target_support next_q_distribution
                                    (_support self) (delta_z_of (_support self)))
                 = batch_size).
  { rewrite projection_eq by (eapply shapes_agree_rows; eassumption).
    rewrite zip_with_length; congruence. }
  split; [exact Hlen|].
  apply Forall_forall. intros row Hin.
  destruct (In_nth _ _ [] Hin) as (b & Hb & <-). rewrite Hlen in Hb.
  rewrite Forall_forall in Hdist.
  destruct (Hdist (nth b next_q_distribution [])) as [Hnonneg Hsum];
    [apply nth_In; lia|].
  split.
  - apply projection_row_nonneg; [exact Hshapes | lia | exact Hnonneg].
  - rewrite projection_row_sum by (assumption || lia). exact Hsum.
Qed.

(** X16.  The expected value of the target distribution obeys the Bellman
    equation: where no point of the shifted support of batch element [b]
    leaves [[min_q_value, max_q_value]], the mean of row [b] of the target
    distribution is [reward_scale_factor * reward[b] + gamma * discount[b]]
    times the mean of the next-state distribution. *)
Theorem one_step_target_distribution_mean
    (self : CategoricalDqnAgent) (batch_size : nat) (gamma reward_scale_factor : Q)
    (rewards discounts : list Q) (next_q_distribution : list (list Q)) (b : nat) :
  (b < batch_size)%nat -> (2 <= _num_atoms self)%nat ->
  _min_q_value self < _max_q_value self ->
  length rewards = batch_size -> length discounts = batch_size ->
  length next_q_distribution = batch_size ->
  Forall (fun row => length row = _num_atoms self) next_q_distribution ->
  reduce_sum (nth b next_q_distribution []) == 1 ->
  Forall (fun s => _min_q_value self
                   <= reward_scale_factor * nth b rewards 0
                      + gamma * (nth b discounts 0 * s)
                   <= _max_q_value self)
         (_support self) ->
  exists target_distribution,
    one_step_target_distribution self batch_size gamma reward_scale_factor
                                 (rewards, discounts) next_q_distribution
    = Ok target_distribution /\
    expected_value (_support self) (nth b target_distribution [])
    == reward_scale_factor * nth b rewards 0
       + gamma * nth b discounts 0
         * expected_value (_support self) (nth b next_q_distribution []).
Proof.
  intros Hb HN Hlt Hr Hd Hq Hrows Hsum Hinside.
  assert (HB : (1 <= batch_size)%nat) by lia.
  pose proof (one_step_shapes_agree self batch_size gamma reward_scale_factor
                rewards discounts next_q_distribution HB HN Hr Hd Hq Hrows)
    as Hshapes.
  destruct (support_valid self HN Hlt) as (Hvalid & Hmin & Hmax & _).
  pose proof (one_step_target_support_length self batch_size gamma
                reward_scale_factor rewards discounts Hr Hd) as Hts.
  unfold one_step_target_distribution. eexists.
  split; [apply project_distribution_returns; [exact Hshapes | now left]|].
  rewrite projection_first_moment by (assumption || lia).
  rewrite one_step_target_support_row by assumption.
  assert (Hrow : length (nth b next_q_distribution []) = length (_support self)).
  { rewrite Forall_forall in Hrows.
    rewrite (Hrows (nth b next_q_distribution [])) by (apply nth_In; lia).
    unfold _support. now rewrite linspace_length. }
  rewrite <- !expected_value_eq by (rewrite ?length_map; congruence).
  rewrite map_map.
  rewrite (affine_sum _ (reward_scale_factor * nth b rewards 0)
                      (gamma * nth b discounts 0))
    by (try congruence; intros s Hs; cbv beta;
        rewrite clip_by_value_inside
          by (rewrite Hmin, Hmax; rewrite Forall_forall in Hinside;
              apply Hinside, Hs);
        ring).
  rewrite Hsum. ring.
Qed.

(** X17.  Terminal transitions: where the discount of batch element [b] is
    0, row [b] of the target distribution no longer depends on the shape of
    the next-state distribution; it is the projection of a unit mass placed
    at the scaled reward. *)
Theorem one_step_target_distribution_terminal
    (self : CategoricalDqnAgent) (batch_size : nat) (gamma reward_scale_factor : Q)
    (rewards discounts : list Q) (next_q_distribution : list (list Q)) (b : nat) :
  (b < batch_size)%nat -> (2 <= _num_atoms self)%nat ->
  length rewards = batch_size -> length discounts = batch_size ->
  length next_q_distribution = batch_size ->
  Forall (fun row => length row = _num_atoms self) next_q_distribution ->
  reduce_sum (nth b next_q_distribution []) == 1 ->
  nth b discounts 0 == 0 ->
  exists target_distribution,
    one_step_target_distribution self batch_size gamma reward_scale_factor
                                 (rewards, discounts) next_q_distribution
    = Ok target_distribution /\
    forall j, (j < _num_atoms self)%nat ->
      nth j (nth b target_distribution []) 0
      == overlap (_support self) (delta_z_of (_support self))
                 (nth j (_support self) 0)
                 (reward_scale_factor * nth b rewards 0).
Proof.
  intros Hb HN Hr Hd Hq Hrows Hsum Hterminal.
  assert (HB : (1 <= batch_size)%nat) by lia.
  pose proof (one_step_shapes_agree self batch_size gamma reward_scale_factor
                rewards discounts next_q_distribution HB HN Hr Hd Hq Hrows)
    as Hshapes.
  pose proof (one_step_target_support_length self batch_size gamma
                reward_scale_factor rewards discounts Hr Hd) as Hts.
  assert (Hlen : length (_support self) = _num_atoms self)
    by (unfold _support; apply linspace_length).
  unfold one_step_target_distribution. eexists.
  split; [apply project_distribution_returns; [exact Hshapes | now left]|].
  intros j Hj.
  rewrite projection_nth
    by (try lia; eapply shapes_agree_rows; eassumption).
  rewrite one_step_target_support_row by assumption.
  assert (Hrow : length (nth b next_q_distribution []) = length (_support self)).
  { rewrite Forall_forall in Hrows.
    rewrite (Hrows (nth b next_q_distribution [])) by (apply nth_In; lia).
    now rewrite Hlen. }
  rewrite map_map.
  rewrite (affine_sum _ (overlap (_support self) (delta_z_of (_support self))
                                 (nth j (_support self) 0)
                                 (reward_scale_factor * nth b rewards 0)) 0)
    by (try congruence; intros s Hs; cbv beta;
        rewrite (overlap_wd _ _ _ _ (reward_scale_factor * nth b rewards 0))
          by (rewrite Hterminal; ring);
        ring).
  rewrite Hsum. ring.
Qed.

Lemma one_step_target_distribution_is_distribution_witness :
  exists target_distribution,
    one_step_target_distribution ex_agent 2 (9 # 10) 1 ([1; 2], [1; 0])
                                 [[1 # 2; 1 # 2; 0]; [0; 0; 1]]
    = Ok target_distribution /\
    length target_distribution = 2%nat /\
    Forall (fun row => Forall (fun p => 0 <= p) row /\ reduce_sum row == 1)
           target_distribution.
Proof.
  apply (one_step_target_distribution_is_distribution
           ex_agent 2 (9 # 10) 1 [1; 2] [1; 0] [[1 # 2; 1 # 2; 0]; [0; 0; 1]]);
    try reflexivity; try (simpl; lia).
  - repeat constructor.
  - repeat constructor; vm_compute; (discriminate || reflexivity).
Defined.

Lemma one_step_target_distribution_mean_witness :
  exists target_distribution,
    one_step_target_distribution ex_agent 1 1 1 ([1 # 2], [1 # 2])
                                 [[1 # 2; 1 # 2; 0]]
    = Ok target_distribution /\
    expected_value (_support ex_agent) (nth 0 target_distribution [])
    == 1 * nth 0 [1 # 2] 0
       + 1 * nth 0 [1 # 2] 0
         * expected_value (_support ex_agent) (nth 0 [[1 # 2; 1 # 2; 0]] []).
Proof.
  apply (one_step_target_distribution_mean
           ex_agent 1 1 1 [1 # 2] [1 # 2] [[1 # 2; 1 # 2; 0]] 0);
    try reflexivity; try (simpl; lia).
  - repeat constructor.
  - repeat constructor; vm_compute; discriminate.
Defined.

Lemma one_step_target_distribution_terminal_witness :
  exists target_distribution,
    one_step_target_distribution ex_agent 2 (9 # 10) 1 ([1; 2], [1; 0])
                                 [[1 # 2; 1 # 2; 0]; [0; 0; 1]]
    = Ok target_distribution /\
    forall j, (j < _num_atoms ex_agent)%nat ->
      nth j (nth 1 target_distribution []) 0
      == overlap (_support ex_agent) (delta_z_of (_support ex_agent))
                 (nth j (_support ex_agent) 0)
                 (1 * nth 1 [1; 2] 0).
Proof.
  apply (one_step_target_distribution_terminal
           ex_agent 2 (9 # 10) 1 [1; 2] [1; 0] [[1 # 2; 1 # 2; 0]; [0; 0; 1]] 1);
    try reflexivity; try (simpl; lia).
  repeat constructor.
Defined.

(** ** [_loss]: the n-step target support *)

(** X18.  In the n-step target support the support enters every row with
    the product of the discounts of that row's window as its only
    coefficient: two entries of a row differ by that product times the
    difference of their atoms.  A zero discount inside the window therefore
    makes the row constant: nothing is bootstrapped. *)
Theorem n_step_target_support_slope
    (self : CategoricalDqnAgent) (batch_size : nat) (gamma reward_scale_factor : Q)
    (experience : trajectory.Trajectory) (b k k' : nat) :
  length (trajectory.reward experience) = batch_size ->
  length (trajectory.discount experience) = batch_size ->
  (b < batch_size)%nat ->
  (k < _num_atoms self)%nat -> (k' < _num_atoms self)%nat ->
  let target_support :=
    n_step_target_support self batch_size gamma reward_scale_factor experience in
  let window := removelast (nth b (trajectory.discount experience) []) in
  nth k (nth b target_support []) 0 - nth k' (nth b target_support []) 0
  == reduce_prod (map (Qmult gamma) window)
     * (nth k (_support self) 0 - nth k' (_support self) 0).
Proof.
  intros Hr Hd Hb Hk Hk' target_support window. subst target_support window.
  rewrite n_step_target_support_eq by assumption.
  rewrite (zip_with_nth _ _ _ b [] [] []) by lia.
  assert (Hlen : length (_support self) = _num_atoms self)
    by (unfold _support; apply linspace_length).
  rewrite !(nth_map_in _ (_support self) _ 0 0) by lia.
  ring.
Qed.

Lemma n_step_target_support_slope_witness :
  let experience := {| trajectory.reward := [[1; 1; 0]; [2; 1; 0]];
                       trajectory.discount := [[1; 1; 1]; [1; 0; 1]] |} in
  let target_support := n_step_target_support ex_agent 2 (9 # 10) 1 experience in
  let window := removelast (nth 1 (trajectory.discount experience) []) in
  nth 2 (nth 1 target_support []) 0 - nth 0 (nth 1 target_support []) 0
  == reduce_prod (map (Qmult (9 # 10)) window)
     * (nth 2 (_support ex_agent) 0 - nth 0 (_support ex_agent) 0).
Proof.
  intros experience.
  apply (n_step_target_support_slope ex_agent 2 (9 # 10) 1 experience 1 2 0);
    try reflexivity; simpl; lia.
Defined.
